(** * tbl: table-driven test dispatch (gdey/tbl, tbl.go)

    A shallow embedding of [Cases], [runOrder], [runTest] and [Run] together
    with the library routines they call (strings.Split, strconv.ParseInt,
    math/rand.Perm), followed by the properties of the dispatch engine.

    Conventions of the embedding.
    - Go's [int] is 64 bits wide; indices and counts are [Z].  Every count
      is bounded by the length of a list, so no wrap-around can occur.
    - A panic is a result of its own ([Panicked]), carrying the reason and
      the state of the world at the moment of the panic.
    - A function value handed to [Run] is a signature (with its variadic
      flag), a nil flag and a total state transformer.  [fn.Call] panics
      for a nil function and for a variadic function whose trailing
      argument is not assignable to the element type; callables that panic
      themselves or do not return are outside the embedding.
    - [fn.Call] appends a record of the call (arguments and results) to a
      ghost log in the world; the log is how the theorems speak about the
      invocations that took place. *)

From Stdlib Require Import ZArith Lia Ascii String.
From stdpp Require Import base decidable option list strings.

Local Open Scope Z_scope.

(** ** Go types and reflected values *)

(** Types of the values that can be test cases.  [TNamed] is a defined type
    (as in [type Celsius int]): it is a type of its own, different from its
    underlying type. *)
Inductive GoType : Type :=
  | TBool
  | TInt
  | TInt64
  | TFloat64
  | TString
  | TNamed (name : string) (underlying : GoType)
  | TPtr (elem : GoType)
  | TSlice (elem : GoType).

#[global] Instance GoType_eq_dec : EqDecision GoType.
Proof. solve_decision. Defined.

(** reflect.Kind, restricted to the kinds the embedding produces. *)
Inductive Kind : Type :=
  | Invalid | Bool | Int | Int64 | Float64 | String_ | Ptr | Slice | Func.

#[global] Instance Kind_eq_dec : EqDecision Kind.
Proof. solve_decision. Defined.

Fixpoint kind_of (t : GoType) : Kind :=
  match t with
  | TBool => Bool
  | TInt => Int
  | TInt64 => Int64
  | TFloat64 => Float64
  | TString => String_
  | TNamed _ u => kind_of u
  | TPtr _ => Ptr
  | TSlice _ => Slice
  end.

(** The payload of a value; Run never looks inside, except for the boolean
    answer of a callable. *)
Inductive Datum : Type :=
  | DBool (b : bool)
  | DInt (z : Z)
  | DString (s : string)
  | DNil
  | DOpaque (id : nat)
  | DVariadic (elem : Datum).   (* the slice reflect makes of one trailing argument *)

#[global] Instance Datum_eq_dec : EqDecision Datum.
Proof. solve_decision. Defined.

(** A valid reflect.Value: a dynamic type and a payload. *)
Record Value : Type := mkValue { v_type : GoType; v_data : Datum }.

#[global] Instance Value_eq_dec : EqDecision Value.
Proof. solve_decision. Defined.

(** An [interface{}] holding data: the nil interface or a typed value
    (a typed nil pointer is [IVal (mkValue (TPtr t) DNil)]). *)
Inductive Iface : Type :=
  | INil
  | IVal (v : Value).

(** reflect.ValueOf: the zero Value ([None], of kind Invalid) for the nil
    interface. *)
Definition ValueOf (x : Iface) : option Value :=
  match x with
  | INil => None
  | IVal v => Some v
  end.

Definition Value_Kind (v : option Value) : Kind :=
  match v with
  | None => Invalid
  | Some val => kind_of (v_type val)
  end.

(** v.Bool(): the payload of a boolean; a panic ([None]) otherwise. *)
Definition Value_Bool (v : Value) : option bool :=
  match v_data v with
  | DBool b => Some b
  | _ => None
  end.

(** reflect.ValueOf(idx) for an [int]. *)
Definition ValueOf_int (idx : Z) : Value := mkValue TInt (DInt idx).

(** reflect.TypeOf(int(1)) and reflect.TypeOf(true). *)
Definition TypeOf_int : GoType := TInt.
Definition TypeOf_bool : GoType := TBool.

(** The reflect.Type of a function: its parameter and result types, and
    whether the last parameter is variadic ([IsVariadic]; [In] then gives
    the slice type of that parameter). *)
Record FuncType : Type := mkFuncType {
  ft_in : list GoType;
  ft_out : list GoType;
  ft_variadic : bool
}.

Definition NumIn (t : FuncType) : nat := length (ft_in t).
Definition NumOut (t : FuncType) : nat := length (ft_out t).
(** [In] and [Out] give a reflect.Type, an interface value: [Some t].  Run
    calls them below [NumIn] and [NumOut] only. *)
Definition In (t : FuncType) (i : nat) : option GoType := ft_in t !! i.
Definition Out (t : FuncType) (i : nat) : option GoType := ft_out t !! i.

(** The underlying type of a type, and the named types: the predeclared
    and the defined ones; pointer and slice types are type literals. *)
Fixpoint underlying (t : GoType) : GoType :=
  match t with
  | TNamed _ u => underlying u
  | _ => t
  end.

Definition is_named (t : GoType) : bool :=
  match t with
  | TPtr _ | TSlice _ => false
  | _ => true
  end.

(** V.AssignableTo(T) over these types: identical types, or identical
    underlying types with at least one of the two not a named type. *)
Definition AssignableTo (V T : GoType) : bool :=
  bool_decide (V = T)
  || (bool_decide (underlying V = underlying T)
      && (negb (is_named V) || negb (is_named T))).


(** ** Library routines *)

Module strings.

Definition comma : ascii := ","%char.

(** strings.Split(s, ","): the fields between the commas, empty fields
    included; the empty string gives one empty field. *)
Fixpoint Split (s : string) : list string :=
  match s with
  | EmptyString => [EmptyString]
  | String c r =>
      if Ascii.eqb c comma then EmptyString :: Split r
      else match Split r with
           | h :: t => String c h :: t
           | [] => [String c EmptyString]
           end
  end.

End strings.

Module strconv.

Definition maxUint64 : Z := 2 ^ 64 - 1.

Inductive UintResult : Type :=
  | ErrSyntax
  | ErrRange            (* the value returned with it is maxUint64 *)
  | UintOk (n : Z).

Definition digit_of (c : ascii) : option Z :=
  let n := Z.of_nat (nat_of_ascii c) in
  if (48 <=? n) && (n <=? 57) then Some (n - 48) else None.

(** The digit loop of ParseUint in base 10: a character that is not a
    decimal digit is a syntax error, a value above maxUint64 a range
    error. *)
Fixpoint ParseUint_loop (s : string) (n : Z) : UintResult :=
  match s with
  | EmptyString => UintOk n
  | String c r =>
      match digit_of c with
      | None => ErrSyntax
      | Some d =>
          if maxUint64 <? n * 10 + d then
            (* overflow: the scan stops with a range error *)
            ErrRange
          else ParseUint_loop r (n * 10 + d)
      end
  end.

Definition ParseUint (s : string) : UintResult :=
  match s with
  | EmptyString => ErrSyntax
  | _ => ParseUint_loop s 0
  end.

(** strconv.ParseInt(s, 10, 64); [None] stands for [err != nil]. *)
Definition ParseInt (s : string) : option Z :=
  match s with
  | EmptyString => None
  | String c r =>
      let '(neg, s1) :=
        if Ascii.eqb c "+"%char then (false, r)
        else if Ascii.eqb c "-"%char then (true, r)
        else (false, s) in
      let cutoff := 2 ^ 63 in
      let check (un : Z) :=
        if negb neg && (cutoff <=? un) then None
        else if neg && (cutoff <? un) then None
        else Some (if neg then - un else un) in
      match ParseUint s1 with
      | ErrSyntax => None
      | ErrRange => check maxUint64
      | UintOk un => check un
      end
  end.

End strconv.

Module rand.

(** r.Intn(n) for n > 0: some number of [0, n), here the next raw draw of
    the source reduced modulo n. *)
Definition Intn (draw : nat) (n : nat) : nat := (draw mod n)%nat.

(** The loop of rand.Perm:
      for i := 0; i < n; i++ { j := r.Intn(i + 1); m[i] = m[j]; m[j] = i }
    [i] is the loop variable and [todo] the number of rounds left. *)
Fixpoint Perm_loop (src : nat -> nat) (i todo : nat) (m : list nat) : list nat :=
  match todo with
  | O => m
  | S todo' =>
      let j := Intn (src i) (i + 1) in
      let m1 := <[i := default 0%nat (m !! j)]> m in
      let m2 := <[j := i]> m1 in
      Perm_loop src (S i) todo' m2
  end.

(** rand.Perm(n) on the source [src]: [m := make([]int, n)], then the
    loop. *)
Definition Perm (src : nat -> nat) (n : nat) : list nat :=
  Perm_loop src 0 n (replicate n 0%nat).

End rand.

(** ** The package *)

(** Why a run of the package panicked. *)
Inductive PanicReason : Type :=
  | InvalidTestcase (i : nat)
      (* "Testcase %v is not a valid test case." *)
  | TestcaseTypeMismatch (want : GoType) (i : nat) (got : GoType)
      (* "Testcases should be of type %v, but element %v is of type %v." *)
  | TypeOfZeroValue
      (* reflect: call of reflect.Value.Type on zero Value *)
  | NotAFunction
      (* "Was not provided a function." *)
  | IncorrectParameter
      (* "Incorrect parameter for test function given. ..." *)
  | IncorrectParameterOne
      (* "Incorrect parameter one for test function given. ..." *)
  | IncorrectParameterTwo
      (* "Incorrect parameter two for test function given. ..." *)
  | IncorrectNumberOfParameters
      (* "Incorrect number of parameters given. ..." *)
  | OutNotBoolean
      (* "Expected out parameter of test function to be a boolean. ..." *)
  | IncorrectNumberOfOuts
      (* "Expected there to be not out parameters or a boolean out ..." *)
  | IndexOutOfRange
      (* runtime error: index out of range *)
  | NotABool
      (* reflect: call of reflect.Value.Bool on a non-bool Value *)
  | CallOfNilFunction
      (* reflect: call of nil function *)
  | CallArgumentNotAssignable.
      (* reflect: cannot use <type> as type <type> in Call *)

#[global] Instance PanicReason_eq_dec : EqDecision PanicReason.
Proof. solve_decision. Defined.

(** Test holds the testcases. *)
Record Test : Type := mkTest {
  cases : list Value;
  vType : option GoType;     (* a reflect.Type; nil is [None] *)
  InOrder : bool
}.

(** The loop of [Cases]; [i] is the index of the head of [testcases]. *)
Fixpoint Cases_loop (i : nat) (testcases : list Iface) (tc : Test)
  : PanicReason + Test :=
  match testcases with
  | [] => inr tc
  | tcase :: rest =>
      let val := ValueOf tcase in
      match val with
      | None => (* val.Kind() == reflect.Invalid *)
          inl (InvalidTestcase i)
      | Some v =>
          match vType tc with
          | None =>
              Cases_loop (S i) rest
                (mkTest (cases tc ++ [v]) (Some (v_type v)) (InOrder tc))
          | Some t =>
              if decide (v_type v <> t)
              then inl (TestcaseTypeMismatch t i (v_type v))
              else Cases_loop (S i) rest
                     (mkTest (cases tc ++ [v]) (vType tc) (InOrder tc))
          end
      end
  end.

(** Cases takes a list of test cases to use for the table driven tests. *)
Definition Cases (testcases : list Iface) : PanicReason + Test :=
  Cases_loop 0 testcases (mkTest [] None false).

(** runOrder, on the value of the flag tblTest.RunOrder: [None] is a nil
    pointer, [Some s] a pointer to [s]. *)
Fixpoint runOrder_loop (fields : list string) (idx : list Z) : list Z :=
  match fields with
  | [] => idx
  | s :: rest =>
      match strconv.ParseInt s with
      | Some i => runOrder_loop rest (idx ++ [i])
      | None => runOrder_loop rest idx
      end
  end.

Definition runOrder (runorder : option string) : list Z * bool :=
  match runorder with
  | None => ([], false)
  | Some s =>
      if decide (s = EmptyString) then ([], false)
      else
        let idx := runOrder_loop (strings.Split s) [] in
        (idx, (0 <? length idx)%nat)
  end.

(** ** Calls, the world and the dispatch engine *)

(** One entry of the ghost log: what [fn.Call] was given and what it
    returned. *)
Record CallRecord : Type := mkCall { c_params : list Value; c_results : list Value }.

(** The results slice of a call, laid out by the signature.  Run reads
    [res[0].Bool()] at most, and only under a signature with exactly one
    result of type bool; a result of another type carries a placeholder. *)
Definition results_of (outs : list GoType) (b : bool) : list Value :=
  map (fun t => mkValue t (if decide (t = TypeOf_bool) then DBool b else DOpaque 0)) outs.

Section Dispatch.

(** The state the callable closes over. *)
Context {St : Type}.

(** A function value: its reflect.Type, whether it is the nil function of
    that type, and its body.  The body maps the arguments and the state to
    the new state and the boolean it answers (read only when the signature
    returns one); a nil function has none, its [fn_body] is never run. *)
Record FuncValue : Type := mkFunc {
  fn_type : FuncType;
  fn_nil : bool;
  fn_body : list Value -> St -> St * bool
}.

(** The argument of Run, an [interface{}]: data or a function. *)
Inductive Arg : Type :=
  | ArgIface (x : Iface)
  | ArgFunc (f : FuncValue).

Record World : Type := mkWorld {
  w_state : St;                  (* what the callable closes over *)
  w_runorder : option string;    (* the flag tblTest.RunOrder *)
  w_source : nat -> nat;         (* the raw draws of the random source *)
  w_calls : list CallRecord      (* ghost: the calls made so far *)
}.

Inductive Result (A : Type) : Type :=
  | Ok (a : A) (w : World)
  | Panicked (p : PanicReason) (w : World).
Arguments Ok {A} a w.
Arguments Panicked {A} p w.

Definition M (A : Type) : Type := World -> Result A.

Definition ret {A} (a : A) : M A := fun w => Ok a w.
Definition panic {A} (p : PanicReason) : M A := fun w => Panicked p w.
Definition bind {A B} (c : M A) (k : A -> M B) : M B :=
  fun w => match c w with
           | Ok a w' => k a w'
           | Panicked p w' => Panicked p w'
           end.

Notation "x <- c ;; k" := (bind c (fun x => k))
  (at level 100, c at next level, right associativity).

(** What reflect hands to the body for the arguments [params] of a call,
    when there are as many of them as parameters, as in every call of
    Run.  For a variadic function the trailing argument must be
    assignable to the element type of the variadic parameter and is
    wrapped into a slice of that type; [None] is reflect's panic.  The
    other arguments are of the parameter types by the validation of Run:
    the index is an int, and the case has the element type whenever the
    collection was built by Cases. *)
Definition call_args (t : FuncType) (params : list Value) : option (list Value) :=
  if ft_variadic t then
    match last (ft_in t), last params with
    | Some (TSlice E), Some x =>
        if decide (length params = NumIn t) then
          if AssignableTo (v_type x) E
          then Some (removelast params ++ [mkValue (TSlice E) (DVariadic (v_data x))])
          else None
        else None
    | _, _ => None
    end
  else Some params.

(** fn.Call(params): a panic of reflect for the nil function and for
    arguments that cannot be passed; otherwise the body runs. *)
Definition Call (fn : FuncValue) (params : list Value) : M (list Value) :=
  fun w =>
    if fn_nil fn then Panicked CallOfNilFunction w
    else
      match call_args (fn_type fn) params with
      | None => Panicked CallArgumentNotAssignable w
      | Some args =>
          let '(s', b) := fn_body fn args (w_state w) in
          let res := results_of (ft_out (fn_type fn)) b in
          Ok res (mkWorld s' (w_runorder w) (w_source w)
                    (w_calls w ++ [mkCall params res]))
      end.

(** rand.Perm(n) on the process-wide source, which moves on by the [n]
    draws the loop made. *)
Definition rand_Perm (n : nat) : M (list Z) :=
  fun w =>
    Ok (map Z.of_nat (rand.Perm (w_source w) n))
       (mkWorld (w_state w) (w_runorder w)
          (fun k => w_source w (k + n)%nat) (w_calls w)).

Definition runOrder_flag : M (list Z * bool) :=
  fun w => Ok (runOrder (w_runorder w)) w.

Definition runTest (fn : FuncValue) (idx : Z) (testcase : Value)
    (tp r : bool) : M bool :=
  let params := if tp then [ValueOf_int idx] else [] in
  let params := params ++ [testcase] in
  res <- Call fn params ;;
  if r then
    match res !! 0%nat with
    | None => panic IndexOutOfRange
    | Some v =>
        match Value_Bool v with
        | Some b => ret b
        | None => panic NotABool
        end
    end
  else ret true.

(** The switch on [fnType.NumIn()]; the answer is [twoInParams]. *)
Definition check_in (tc : Test) (fnType : FuncType) : M bool :=
  match NumIn fnType with
  | 1%nat =>
      if decide (In fnType 0 <> vType tc) then panic IncorrectParameter
      else ret false
  | 2%nat =>
      if decide (In fnType 0 <> Some TypeOf_int) then panic IncorrectParameterOne
      else if decide (In fnType 1 <> vType tc) then panic IncorrectParameterTwo
      else ret true
  | _ => panic IncorrectNumberOfParameters
  end.

(** The switch on [fnType.NumOut()]; the answer is [hasOutParam]. *)
Definition check_out (fnType : FuncType) : M bool :=
  match NumOut fnType with
  | 0%nat => ret false
  | 1%nat =>
      if decide (Out fnType 0 <> Some TypeOf_bool) then panic OutNotBoolean
      else ret true
  | _ => panic IncorrectNumberOfOuts
  end.

(** The loop over the indices of the flag. *)
Fixpoint run_flag_loop (tc : Test) (fn : FuncValue) (tp r : bool)
    (idxs : list Z) (count : Z) : M Z :=
  match idxs with
  | [] => ret count
  | idx :: rest =>
      if (idx <? 0) || (Z.of_nat (length (cases tc)) <=? idx)
      then run_flag_loop tc fn tp r rest count
      else
        let count := count + 1 in
        match cases tc !! Z.to_nat idx with
        | None => panic IndexOutOfRange
        | Some testcase =>
            ok <- runTest fn idx testcase tp r ;;
            if negb ok then ret count
            else run_flag_loop tc fn tp r rest count
        end
  end.

(** [for idx, testcase := range tc.cases]; [idx] is the index of the head
    of [cs]. *)
Fixpoint run_inorder_loop (fn : FuncValue) (tp r : bool)
    (idx : Z) (cs : list Value) (count : Z) : M Z :=
  match cs with
  | [] => ret count
  | testcase :: rest =>
      let count := count + 1 in
      ok <- runTest fn idx testcase tp r ;;
      if negb ok then ret count
      else run_inorder_loop fn tp r (idx + 1) rest count
  end.

(** The loop over the random permutation. *)
Fixpoint run_perm_loop (tc : Test) (fn : FuncValue) (tp r : bool)
    (list : list Z) (count : Z) : M Z :=
  match list with
  | [] => ret count
  | idx :: rest =>
      let count := count + 1 in
      match cases tc !! Z.to_nat idx with
      | None => panic IndexOutOfRange
      | Some testcase =>
          ok <- runTest fn idx testcase tp r ;;
          if negb ok then ret count
          else run_perm_loop tc fn tp r rest count
      end
  end.

(** Run calls the given function for each test case. *)
Definition Run (tc : Test) (function : Arg) : M Z :=
  match function with
  | ArgIface x =>
      match ValueOf x with
      | None => panic TypeOfZeroValue      (* fn.Type() of the zero Value *)
      | Some _ => panic NotAFunction       (* the kind of data is never Func *)
      end
  | ArgFunc fn =>
      let fnType := fn_type fn in
      twoInParams <- check_in tc fnType ;;
      hasOutParam <- check_out fnType ;;
      if decide (length (cases tc) = 0%nat) then ret 0
      else
        ro <- runOrder_flag ;;
        let '(idxs, ok) := ro in
        if ok then run_flag_loop tc fn twoInParams hasOutParam idxs 0
        else if InOrder tc then
          run_inorder_loop fn twoInParams hasOutParam 0 (cases tc) 0
        else
          list <- rand_Perm (length (cases tc)) ;;
          run_perm_loop tc fn twoInParams hasOutParam list 0
  end.

End Dispatch.

Arguments FuncValue St : clear implicits.
Arguments Arg St : clear implicits.
Arguments World St : clear implicits.
Arguments Result St A : clear implicits.
Arguments M St A : clear implicits.
Arguments Ok {St A} a w.
Arguments Panicked {St A} p w.

(** ** A logging callable, for concrete runs *)

Module Sample.

(** The state is the list of the argument lists seen so far; the callable
    answers [false] on the index [stop_at], [true] elsewhere. *)
Definition log_body (stop_at : Z) (params : list Value) (st : list (list Value))
  : list (list Value) * bool :=
  (st ++ [params],
   match params with
   | v :: _ => if decide (v_data v = DInt stop_at) then false else true
   | [] => true
   end).

Definition form_A (t : GoType) : FuncValue (list (list Value)) :=
  mkFunc (mkFuncType [t] [] false) false (log_body (-1)).
Definition form_B (t : GoType) (stop_at : Z) : FuncValue (list (list Value)) :=
  mkFunc (mkFuncType [t] [TBool] false) false (log_body stop_at).
Definition form_C (t : GoType) : FuncValue (list (list Value)) :=
  mkFunc (mkFuncType [TInt; t] [] false) false (log_body (-1)).
Definition form_D (t : GoType) (stop_at : Z) : FuncValue (list (list Value)) :=
  mkFunc (mkFuncType [TInt; t] [TBool] false) false (log_body stop_at).

Definition str (s : string) : Value := mkValue TString (DString s).

Definition four : list Iface :=
  [IVal (str "a"); IVal (str "b"); IVal (str "c"); IVal (str "d")].

Definition four_cases : Test :=
  mkTest [str "a"; str "b"; str "c"; str "d"] (Some TString) false.

Definition four_in_order : Test :=
  mkTest [str "a"; str "b"; str "c"; str "d"] (Some TString) true.





Definition world0 (flag : option string) : World (list (list Value)) :=
  mkWorld [] flag (fun i => (i * 7 + 3)%nat) [].

(** The count and the indices a run of a two-parameter callable saw. *)
Definition seen {A} (r : Result (list (list Value)) A) : option (A * list Datum) :=
  match r with
  | Ok a w => Some (a, map (fun c => match c_params c with
                                     | v :: _ => v_data v
                                     | [] => DNil
                                     end) (w_calls w))
  | Panicked _ _ => None
  end.

End Sample.

(** ** The vocabulary of the specification *)

(** The four accepted forms of the callable. *)
Inductive Form : Type := FormA | FormB | FormC | FormD.

Definition expectsIndex (f : Form) : bool :=
  match f with FormC | FormD => true | _ => false end.

Definition expectsResult (f : Form) : bool :=
  match f with FormB | FormD => true | _ => false end.

(** The signature of a form over the element type: (case), (case) bool,
    (index, case) and (index, case) bool. *)
Definition form_type (elementType : GoType) (f : Form) : FuncType :=
  mkFuncType ((if expectsIndex f then [TInt] else []) ++ [elementType])
             (if expectsResult f then [TBool] else [])
             false.

(** The callable has the form [f] over the element type of the
    collection: a function that is not nil, with the signature of the
    form, which is not variadic. *)
Definition accepted {St} (tc : Test) (fn : FuncValue St) (f : Form) : Prop :=
  exists T, vType tc = Some T /\ fn_type fn = form_type T f /\ fn_nil fn = false.

(** The parameter and result types of the function are those of the form
    [f] over the element type; this is all the validation of Run looks
    at, the function may be nil or variadic. *)
Definition shaped {St} (tc : Test) (fn : FuncValue St) (f : Form) : Prop :=
  exists T, vType tc = Some T
            /\ ft_in (fn_type fn) = ft_in (form_type T f)
            /\ ft_out (fn_type fn) = ft_out (form_type T f).

(** The function can be called, and the results of its signature agree
    with [hasOutParam]. *)
Definition out_ok {St} (fn : FuncValue St) (r : bool) : Prop :=
  fn_nil fn = false /\ ft_variadic (fn_type fn) = false
  /\ ft_out (fn_type fn) = if r then [TBool] else [].

(** The shape validation fails, in the words of the specification: the
    argument is not callable, its parameter count is not 1 or 2, an arity-1
    parameter or an arity-2 second parameter differs from the element type,
    an arity-2 first parameter is not exactly int, the return count exceeds
    1, or the single return type is not exactly bool. *)
Definition shape_invalid {St} (elementType : option GoType) (function : Arg St) : Prop :=
  match function with
  | ArgIface _ => True
  | ArgFunc fn =>
      let t := fn_type fn in
      (NumIn t <> 1 /\ NumIn t <> 2)%nat
      \/ (NumIn t = 1%nat /\ In t 0 <> elementType)
      \/ (NumIn t = 2%nat /\ In t 1 <> elementType)
      \/ (NumIn t = 2%nat /\ In t 0 <> Some TInt)
      \/ (1 < NumOut t)%nat
      \/ (NumOut t = 1%nat /\ Out t 0 <> Some TBool)
  end.

(** The inputs of a construction that must abort, in the words of the
    specification: some element is an invalid value (the nil interface), or
    some element after the first has a type other than the type of the
    first. *)
Definition rejected_inputs (testcases : list Iface) : Prop :=
  INil ∈ testcases
  \/ (exists v0 j v, testcases !! 0%nat = Some (IVal v0)
                     /\ testcases !! S j = Some (IVal v)
                     /\ v_type v <> v_type v0).

(** The external override as the specification describes it: split on
    commas, keep the tokens that parse. *)
Definition parse_override (flag : option string) : list Z :=
  match flag with
  | None => []
  | Some s => omap strconv.ParseInt (strings.Split s)
  end.

(** The resolved order: a non-empty parsed override wins, its indices
    outside [0, len(cases)) skipped; then the in-order flag; then a random
    permutation. *)
Definition resolved_order (tc : Test) (flag : option string) (src : nat -> nat)
  : list Z :=
  let n := length (cases tc) in
  let idxs := parse_override flag in
  if decide (idxs = []) then
    if InOrder tc then Z.of_nat <$> seq 0 n
    else Z.of_nat <$> rand.Perm src n
  else filter (fun idx => 0 <= idx < Z.of_nat n) idxs.

(** The arguments of the invocation for the index [idx]: (case) or
    (index, case). *)
Definition args_of (tc : Test) (tp : bool) (idx : Z) : list Value :=
  (if tp then [ValueOf_int idx] else [])
  ++ option_list (cases tc !! Z.to_nat idx).

(** The call answered [false], the stop signal. *)
Definition returned_false (c : CallRecord) : bool :=
  bool_decide (c_results c = [mkValue TBool (DBool false)]).

(** [new] is the log of a dispatch pass over the argument lists [args]: the
    calls are those of a prefix of [args], a call that answered false is the
    last one, and the pass only ends before the end of [args] on such a
    call. *)
Definition pass_over (args : list (list Value)) (new : list CallRecord) : Prop :=
  (length new <= length args)%nat
  /\ map c_params new = take (length new) args
  /\ (forall i c, new !! i = Some c -> returned_false c = true -> S i = length new)
  /\ (Forall (fun c => returned_false c = false) new -> length new = length args).

(** The same over an order of indices into the cases. *)
Definition dispatched (tc : Test) (tp : bool) (order : list Z)
    (new : list CallRecord) : Prop :=
  pass_over (map (args_of tc tp) order) new.

(** The (index, case) pairs of an order, and the arguments of a pair. *)
Definition pairs_of (tc : Test) (order : list Z) : list (Z * Value) :=
  omap (fun idx => pair idx <$> cases tc !! Z.to_nat idx) order.

Definition params_of (tp : bool) (p : Z * Value) : list Value :=
  (if tp then [ValueOf_int (fst p)] else []) ++ [snd p].

(** A device of the proofs, not a function of the package: the body that
    the three loops of Run share, a pass over (index, case) pairs. *)
Fixpoint dispatch {St} (fn : FuncValue St) (tp r : bool)
    (todo : list (Z * Value)) (count : Z) : M St Z :=
  match todo with
  | [] => ret count
  | p :: rest =>
      bind (runTest fn (fst p) (snd p) tp r)
        (fun ok => if negb ok then ret (count + 1)
                   else dispatch fn tp r rest (count + 1))
  end.

(** The log and the final state of a pass of the callable over the
    argument lists [args] from the state [s]: one call per argument list,
    the state threaded through, the pass ended by the first answer false of
    a callable with a result ([r]). *)
Fixpoint pass_log {St} (fn : FuncValue St) (r : bool)
    (args : list (list Value)) (s : St) : list CallRecord * St :=
  match args with
  | [] => ([], s)
  | a :: rest =>
      let '(s1, b) := fn_body fn a s in
      let c := mkCall a (results_of (ft_out (fn_type fn)) b) in
      if r && negb b then ([c], s1)
      else let '(cs, s2) := pass_log fn r rest s1 in (c :: cs, s2)
  end.

(** The diagnostics of the shape validation of Run. *)
Definition validation_reason (p : PanicReason) : Prop :=
  p = TypeOfZeroValue \/ p = NotAFunction
  \/ p = IncorrectParameter \/ p = IncorrectParameterOne
  \/ p = IncorrectParameterTwo \/ p = IncorrectNumberOfParameters
  \/ p = OutNotBoolean \/ p = IncorrectNumberOfOuts.

(** The panics of reflect inside [fn.Call]. *)
Definition call_reason (p : PanicReason) : Prop :=
  p = CallOfNilFunction \/ p = CallArgumentNotAssignable.

(** The answers of the body when it is run over the argument lists [args]
    one after the other from the state [s], whatever it answers. *)
Fixpoint answers {St} (fn : FuncValue St) (args : list (list Value)) (s : St)
  : list bool :=
  match args with
  | [] => []
  | a :: rest =>
      let '(s1, b) := fn_body fn a s in
      b :: answers fn rest s1
  end.

(** In the answers [bs] the first false is the one number [k], counted
    from 1. *)
Definition first_false_answer (bs : list bool) (k : nat) : Prop :=
  (0 < k)%nat
  /\ bs !! (k - 1)%nat = Some false
  /\ (forall i, (i < k - 1)%nat -> bs !! i = Some true).

(** The range of an int64. *)
Definition int64_range (z : Z) : Prop := - 2 ^ 63 <= z < 2 ^ 63.

(** ** Concrete runs *)

Example Split_ex1 : strings.Split "1,,x2," = ["1"; EmptyString; "x2"; EmptyString]%string.
Proof. reflexivity. Qed.

Example ParseInt_ex1 :
  map strconv.ParseInt ["12"; "-3"; "+7"; EmptyString; " 1"; "1_0"; "0x1"; "-";
                        "9223372036854775807"; "9223372036854775808";
                        "-9223372036854775808"; "-9223372036854775809";
                        "99999999999999999999999"]%string
  = [Some 12; Some (-3); Some 7; None; None; None; None; None;
     Some 9223372036854775807; None;
     Some (-9223372036854775808); None; None].
Proof. vm_compute. reflexivity. Qed.

Example Perm_ex1 : rand.Perm (fun i => (i * 7 + 3)%nat) 5 = [3; 4; 2; 1; 0]%nat.
Proof. vm_compute. reflexivity. Qed.

Example runOrder_ex1 : runOrder (Some "1,x,-2,,9"%string) = ([1; -2; 9], true).
Proof. vm_compute. reflexivity. Qed.

Example runOrder_ex2 : runOrder (Some "a,b"%string) = ([], false).
Proof. vm_compute. reflexivity. Qed.

Example Cases_four : Cases Sample.four = inr Sample.four_cases.
Proof. reflexivity. Qed.

Example Run_flag_131 :
  Sample.seen (Run Sample.four_cases (ArgFunc (Sample.form_C TString))
                 (Sample.world0 (Some "1,3,1"%string)))
  = Some (3, [DInt 1; DInt 3; DInt 1]).
Proof. vm_compute. reflexivity. Qed.

Example Run_flag_192 :
  Sample.seen (Run Sample.four_cases (ArgFunc (Sample.form_C TString))
                 (Sample.world0 (Some "1,9,2"%string)))
  = Some (2, [DInt 1; DInt 2]).
Proof. vm_compute. reflexivity. Qed.

Example Run_random :
  Sample.seen (Run Sample.four_cases (ArgFunc (Sample.form_D TString 2))
                 (Sample.world0 None))
  = Some (3, [DInt 3; DInt 0; DInt 2]).
Proof. vm_compute. reflexivity. Qed.

(** ** Kinds *)

(** The kind of a data type is neither Invalid nor Func: a valid value is
    never of kind Invalid, and data handed to Run is never a function. *)
Lemma kind_of_data (t : GoType) : kind_of t <> Invalid /\ kind_of t <> Func.
Proof. induction t; simpl; auto; split; discriminate. Qed.

Lemma Value_Kind_Invalid (x : Iface) :
  Value_Kind (ValueOf x) = Invalid <-> ValueOf x = None.
Proof.
  destruct x as [|v]; simpl; [tauto|].
  split; [|discriminate]. intros H. now apply kind_of_data in H.
Qed.

(** ** The library routines *)

Section RandPerm.

Variable src : nat -> nat.

Lemma Intn_lt draw n : (0 < n)%nat -> (rand.Intn draw n < n)%nat.
Proof. intros Hn. unfold rand.Intn. apply Nat.mod_upper_bound. lia. Qed.

(** One round of the loop keeps the filled part a permutation of the
    indices handled so far and the rest zero. *)
Lemma Perm_round (p : list nat) (i todo j : nat) :
  length p = i -> p ≡ₚ seq 0 i -> (j <= i)%nat ->
  exists p',
    <[j := i]> (<[i := default 0%nat ((p ++ replicate (S todo) 0%nat) !! j)]>
                  (p ++ replicate (S todo) 0%nat))
    = p' ++ replicate todo 0%nat
    /\ length p' = S i /\ p' ≡ₚ seq 0 (S i).
Proof.
  intros Hlen Hperm Hj. rewrite seq_S. simpl.
  destruct (decide (j = i)) as [->|Hne].
  - exists (p ++ [i]). split; [|split].
    + rewrite lookup_app_r by lia. rewrite Hlen, Nat.sub_diag. simpl.
      rewrite !insert_app_r_alt by lia. rewrite Hlen, Nat.sub_diag. simpl.
      now rewrite <- app_assoc.
    + rewrite length_app. simpl. lia.
    + now rewrite Hperm.
  - assert (Hjlt : (j < length p)%nat) by lia.
    destruct (lookup_lt_is_Some_2 p j Hjlt) as [x Hx].
    exists (<[j := i]> p ++ [x]). split; [|split].
    + rewrite lookup_app_l by lia. rewrite Hx. simpl.
      rewrite (insert_app_r_alt p) by lia. rewrite Hlen, Nat.sub_diag. simpl.
      rewrite insert_app_l by lia. now rewrite <- app_assoc.
    + rewrite length_app, length_insert. simpl. lia.
    + rewrite insert_take_drop by lia.
      rewrite <- Hperm. rewrite <- (take_drop_middle p j x Hx) at 3.
      rewrite <- !app_assoc. simpl.
      rewrite <- !Permutation_middle. apply Permutation_swap.
Qed.

Lemma Perm_loop_perm (todo i : nat) (p : list nat) :
  length p = i -> p ≡ₚ seq 0 i ->
  rand.Perm_loop src i todo (p ++ replicate todo 0%nat) ≡ₚ seq 0 (i + todo).
Proof.
  revert i p. induction todo as [|todo IH]; intros i p Hlen Hperm.
  - simpl. now rewrite app_nil_r, Nat.add_0_r.
  - cbn [rand.Perm_loop].
    assert (Hj : (rand.Intn (src i) (i + 1) <= i)%nat).
    { pose proof (Intn_lt (src i) (i + 1)). lia. }
    destruct (Perm_round p i todo _ Hlen Hperm Hj) as (p' & -> & Hlen' & Hperm').
    rewrite (IH (S i) p' Hlen' Hperm'). f_equiv. lia.
Qed.

(** rand.Perm(n) is a permutation of 0, ..., n-1, whatever the source
    draws. *)
Lemma Perm_is_permutation (n : nat) : rand.Perm src n ≡ₚ seq 0 n.
Proof.
  unfold rand.Perm. apply (Perm_loop_perm n 0 []); [reflexivity|reflexivity].
Qed.

Lemma Perm_length (n : nat) : length (rand.Perm src n) = n.
Proof. rewrite Perm_is_permutation. apply length_seq. Qed.

Lemma Perm_in_range (n i : nat) : i ∈ rand.Perm src n -> (i < n)%nat.
Proof. rewrite Perm_is_permutation, elem_of_seq. lia. Qed.

End RandPerm.

(** ** The dispatch pass *)

Section DispatchFacts.

Context {St : Type}.
Implicit Types (fn : FuncValue St) (w : World St) (tc : Test).

Lemma runTest_spec fn idx v tp r w :
  out_ok fn r ->
  exists b c w',
    runTest fn idx v tp r w = Ok b w'
    /\ w_calls w' = w_calls w ++ [c]
    /\ w_runorder w' = w_runorder w /\ w_source w' = w_source w
    /\ c_params c = params_of tp (idx, v)
    /\ returned_false c = negb b
    /\ (r = false -> b = true).
Proof.
  intros (Hnil & Hvar & Hout). unfold runTest, bind, Call, call_args.
  rewrite Hnil, Hvar.
  destruct (fn_body fn _ (w_state w)) as [s' b0] eqn:Hb.
  rewrite Hout.
  destruct r; simpl.
  - exists b0. eexists. eexists. repeat split; simpl; try reflexivity.
    + unfold returned_false. simpl. now destruct b0.
    + discriminate.
  - exists true. eexists. eexists. repeat split; simpl; reflexivity.
Qed.

Lemma dispatch_spec fn tp r :
  out_ok fn r ->
  forall todo count w,
  exists new w',
    dispatch fn tp r todo count w = Ok (count + Z.of_nat (length new)) w'
    /\ w_calls w' = w_calls w ++ new
    /\ w_runorder w' = w_runorder w /\ w_source w' = w_source w
    /\ pass_over (map (params_of tp) todo) new
    /\ (r = false -> Forall (fun c => returned_false c = false) new).
Proof.
  intros Hout. induction todo as [|[idx v] rest IH]; intros count w.
  - exists [], w. simpl. unfold ret. rewrite Z.add_0_r, app_nil_r.
    repeat split; auto. intros i c Hi. now rewrite lookup_nil in Hi.
  - cbn [dispatch fst snd]. unfold bind.
    destruct (runTest_spec fn idx v tp r w Hout)
      as (b & c & w1 & -> & Hc & Hro & Hsrc & Hp & Hrf & Hrb).
    destruct b; simpl.
    + destruct (IH (count + 1) w1)
        as (new & w' & -> & Hc' & Hro' & Hsrc' & HP & HNF).
      destruct HP as (Hlen & Hpar & Hstop & Hall).
      exists (c :: new), w'. repeat split.
      * f_equal. simpl length. lia.
      * rewrite Hc', Hc, <- app_assoc. reflexivity.
      * congruence.
      * congruence.
      * simpl. rewrite length_map in *. lia.
      * simpl. now rewrite Hp, Hpar.
      * intros [|i] c0 Hi Hf; simpl in Hi.
        -- injection Hi as <-. rewrite Hrf in Hf. discriminate.
        -- simpl. f_equal. eauto.
      * intros HF. apply Forall_cons in HF as [_ HF]. simpl. f_equal. auto.
      * intros Hr. apply Forall_cons. split; [exact Hrf|auto].
    + exists [c], w1. unfold ret. repeat split; auto.
      * simpl. rewrite length_map. lia.
      * simpl. now rewrite Hp.
      * intros [|i] c0 Hi Hf; simpl in Hi; [reflexivity|].
        now rewrite lookup_nil in Hi.
      * intros HF. apply Forall_cons in HF as [HF _].
        rewrite Hrf in HF. discriminate.
      * intros Hr. specialize (Hrb Hr). discriminate.
Qed.

(** *** The three loops are dispatch passes *)

Lemma pairs_of_cons tc idx rest :
  pairs_of tc (idx :: rest)
  = match cases tc !! Z.to_nat idx with
    | Some v => (idx, v) :: pairs_of tc rest
    | None => pairs_of tc rest
    end.
Proof. unfold pairs_of. simpl. now destruct (cases tc !! Z.to_nat idx). Qed.

Lemma run_flag_loop_dispatch tc fn tp r idxs count w :
  run_flag_loop tc fn tp r idxs count w
  = dispatch fn tp r
      (pairs_of tc (filter (fun idx => 0 <= idx < Z.of_nat (length (cases tc))) idxs))
      count w.
Proof.
  revert count w. induction idxs as [|idx rest IH]; intros count w; [reflexivity|].
  cbn [run_flag_loop]. rewrite filter_cons.
  destruct (decide (0 <= idx < Z.of_nat (length (cases tc)))) as [Hin|Hout].
  - replace ((idx <? 0) || (Z.of_nat (length (cases tc)) <=? idx)) with false by lia.
    destruct (lookup_lt_is_Some_2 (cases tc) (Z.to_nat idx)) as [v Hv]; [lia|].
    rewrite pairs_of_cons, Hv. cbn [dispatch fst snd].
    unfold bind. destruct (runTest fn idx v tp r w) as [[|] w1|]; simpl; auto.
  - replace ((idx <? 0) || (Z.of_nat (length (cases tc)) <=? idx)) with true by lia.
    apply IH.
Qed.

Lemma run_inorder_loop_dispatch fn tp r cs idx count w :
  0 <= idx ->
  run_inorder_loop fn tp r idx cs count w
  = dispatch fn tp r (zip (Z.of_nat <$> seq (Z.to_nat idx) (length cs)) cs) count w.
Proof.
  revert idx count w.
  induction cs as [|v rest IH]; intros idx count w Hidx; [reflexivity|].
  cbn [run_inorder_loop length seq fmap list_fmap zip zip_with dispatch fst snd].
  rewrite Z2Nat.id by lia. unfold bind.
  destruct (runTest fn idx v tp r w) as [[|] w1|]; simpl; auto.
  rewrite IH by lia. do 4 f_equal. lia.
Qed.

Lemma run_perm_loop_dispatch tc fn tp r order count w :
  Forall (fun idx => 0 <= idx < Z.of_nat (length (cases tc))) order ->
  run_perm_loop tc fn tp r order count w
  = dispatch fn tp r (pairs_of tc order) count w.
Proof.
  intros HF. revert count w.
  induction HF as [|idx rest Hin HF IH]; intros count w; [reflexivity|].
  cbn [run_perm_loop].
  destruct (lookup_lt_is_Some_2 (cases tc) (Z.to_nat idx)) as [v Hv]; [lia|].
  rewrite pairs_of_cons, Hv. cbn [dispatch fst snd].
  unfold bind. destruct (runTest fn idx v tp r w) as [[|] w1|]; simpl; auto.
Qed.

Lemma pairs_of_args tc tp order :
  Forall (fun idx => 0 <= idx < Z.of_nat (length (cases tc))) order ->
  map (params_of tp) (pairs_of tc order) = map (args_of tc tp) order.
Proof.
  induction 1 as [|idx rest Hin HF IH]; [reflexivity|].
  destruct (lookup_lt_is_Some_2 (cases tc) (Z.to_nat idx)) as [v Hv]; [lia|].
  rewrite pairs_of_cons, Hv. cbn [map]. rewrite IH. f_equal.
  unfold args_of, params_of. now rewrite Hv.
Qed.

Lemma pairs_of_inorder_from tc pre cs :
  cases tc = pre ++ cs ->
  pairs_of tc (Z.of_nat <$> seq (length pre) (length cs))
  = zip (Z.of_nat <$> seq (length pre) (length cs)) cs.
Proof.
  revert pre. induction cs as [|v rest IH]; intros pre Hcs; [reflexivity|].
  cbn [length seq fmap list_fmap zip zip_with].
  rewrite pairs_of_cons, Nat2Z.id, Hcs, list_lookup_middle by reflexivity.
  f_equal.
  specialize (IH (pre ++ [v])). rewrite length_app, Nat.add_1_r in IH.
  apply IH. now rewrite Hcs, <- app_assoc.
Qed.

Lemma pairs_of_inorder tc :
  pairs_of tc (Z.of_nat <$> seq 0 (length (cases tc)))
  = zip (Z.of_nat <$> seq 0 (length (cases tc))) (cases tc).
Proof. apply (pairs_of_inorder_from tc []). reflexivity. Qed.

Lemma in_range_seq (n : nat) :
  Forall (fun idx => 0 <= idx < Z.of_nat n) (Z.of_nat <$> seq 0 n).
Proof.
  apply Forall_fmap, Forall_forall. intros i Hi%elem_of_seq. simpl. lia.
Qed.

Lemma in_range_Perm (src : nat -> nat) (n : nat) :
  Forall (fun idx => 0 <= idx < Z.of_nat n) (Z.of_nat <$> rand.Perm src n).
Proof.
  apply Forall_fmap, Forall_forall. intros i Hi%Perm_in_range. simpl. lia.
Qed.

Lemma in_range_filter (n : nat) (idxs : list Z) :
  Forall (fun idx => 0 <= idx < Z.of_nat n)
         (filter (fun idx => 0 <= idx < Z.of_nat n) idxs).
Proof. apply Forall_forall. intros i Hi%list_elem_of_filter. tauto. Qed.

(** *** runOrder *)

Lemma runOrder_loop_omap fields idx :
  runOrder_loop fields idx = idx ++ omap strconv.ParseInt fields.
Proof.
  revert idx. induction fields as [|s rest IH]; intros idx; simpl.
  - now rewrite app_nil_r.
  - destruct (strconv.ParseInt s); rewrite IH; [|reflexivity].
    now rewrite <- app_assoc.
Qed.

Lemma runOrder_parse flag :
  runOrder flag = (parse_override flag, bool_decide (parse_override flag <> [])).
Proof.
  destruct flag as [s|]; [|reflexivity].
  unfold runOrder, parse_override.
  destruct (decide (s = EmptyString)) as [->|Hne]; [reflexivity|].
  rewrite runOrder_loop_omap. simpl.
  destruct (omap strconv.ParseInt (strings.Split s)); reflexivity.
Qed.

(** *** The shape validation *)

Lemma check_in_cases tc (ft : FuncType) w :
  (exists (tp : bool) T, vType tc = Some T
      /\ ft_in ft = (if tp then [TInt] else []) ++ [T]
      /\ check_in tc ft w = Ok tp w)
  \/ (exists p, check_in tc ft w = Panicked p w
      /\ ((NumIn ft <> 1 /\ NumIn ft <> 2)%nat
          \/ (NumIn ft = 1%nat /\ In ft 0 <> vType tc)
          \/ (NumIn ft = 2%nat /\ In ft 1 <> vType tc)
          \/ (NumIn ft = 2%nat /\ In ft 0 <> Some TInt))).
Proof.
  unfold check_in, NumIn, In. destruct ft as [ins outs var]. simpl.
  destruct ins as [|a [|b [|c ins]]]; simpl.
  - right. eexists. split; [reflexivity|]. left. lia.
  - destruct (decide (Some a <> vType tc)) as [Hne|He].
    + right. eexists. split; [reflexivity|]. right. left. auto.
    + left. exists false, a. apply dec_stable in He. auto.
  - destruct (decide (Some a <> Some TypeOf_int)) as [Hne|He].
    + right. eexists. split; [reflexivity|]. do 3 right. auto.
    + destruct (decide (Some b <> vType tc)) as [Hne'|He'].
      * right. eexists. split; [reflexivity|]. right. right. left. auto.
      * left. exists true, b. apply dec_stable in He, He'.
        injection He as ->. auto.
  - right. eexists. split; [reflexivity|]. left. lia.
Qed.

Lemma check_out_cases (ft : FuncType) w :
  (exists r : bool, ft_out ft = (if r then [TBool] else []) /\ check_out ft w = Ok r w)
  \/ (exists p, check_out ft w = Panicked p w
      /\ ((1 < NumOut ft)%nat \/ (NumOut ft = 1%nat /\ Out ft 0 <> Some TBool))).
Proof.
  unfold check_out, NumOut, Out. destruct ft as [ins outs var]. simpl.
  destruct outs as [|a [|b outs]]; simpl.
  - left. exists false. auto.
  - destruct (decide (Some a <> Some TypeOf_bool)) as [Hne|He].
    + right. eexists. split; [reflexivity|]. right. auto.
    + left. exists true. apply dec_stable in He. injection He as ->. auto.
  - right. eexists. split; [reflexivity|]. left. lia.
Qed.

(** A callable of an accepted form passes both switches. *)
Lemma accepted_checks tc fn f w :
  accepted tc fn f ->
  check_in tc (fn_type fn) w = Ok (expectsIndex f) w
  /\ check_out (fn_type fn) w = Ok (expectsResult f) w
  /\ out_ok fn (expectsResult f).
Proof.
  intros (T & HT & Hft & Hnil). unfold out_ok. rewrite Hft.
  unfold check_in, check_out, NumIn, NumOut, In, Out. rewrite HT.
  destruct f; simpl; repeat (case_decide; try congruence); auto.
Qed.

Lemma accepted_shaped tc fn f : accepted tc fn f -> shaped tc fn f.
Proof. intros (T & HT & Hft & _). exists T. now rewrite Hft. Qed.

(** A function whose parameter and result types are those of a form passes
    both switches. *)
Lemma shaped_checks tc fn f w :
  shaped tc fn f ->
  check_in tc (fn_type fn) w = Ok (expectsIndex f) w
  /\ check_out (fn_type fn) w = Ok (expectsResult f) w
  /\ ft_out (fn_type fn) = (if expectsResult f then [TBool] else []).
Proof.
  intros (T & HT & Hin & Hout).
  unfold check_in, check_out, NumIn, NumOut, In, Out. rewrite Hin, Hout, HT.
  destruct f; simpl; repeat (case_decide; try congruence); auto.
Qed.

(** A function that passes both switches has the parameter and result
    types of one of the four forms. *)
Lemma checks_shaped tc fn tp r w w1 w2 :
  check_in tc (fn_type fn) w = Ok tp w1 ->
  check_out (fn_type fn) w1 = Ok r w2 ->
  exists f, shaped tc fn f /\ expectsIndex f = tp /\ expectsResult f = r.
Proof.
  intros Hin Hout.
  destruct (check_in_cases tc (fn_type fn) w)
    as [(tp' & T & HT & Hins & Hin')|(p & Hp & _)]; [|congruence].
  destruct (check_out_cases (fn_type fn) w1)
    as [(r' & Houts & Hout')|(p & Hp & _)]; [|congruence].
  assert (tp' = tp) as -> by congruence. assert (r' = r) as -> by congruence.
  exists (match tp, r with
          | false, false => FormA | false, true => FormB
          | true, false => FormC | true, true => FormD
          end).
  split; [|destruct tp, r; auto].
  exists T. split; [assumption|].
  destruct (fn_type fn) as [ins outs var]. simpl in *. subst.
  destruct tp, r; split; reflexivity.
Qed.

(** *** Run *)

Lemma pass_over_nil : pass_over [] [].
Proof.
  repeat split; auto. intros i c Hi. now rewrite lookup_nil in Hi.
Qed.

Lemma resolved_order_no_cases tc flag src :
  cases tc = [] -> resolved_order tc flag src = [].
Proof.
  intros Hc. unfold resolved_order. rewrite Hc. simpl.
  destruct (decide (parse_override flag = [])).
  - now destruct (InOrder tc).
  - generalize (parse_override flag). intros idxs.
    induction idxs as [|idx rest IH]; [reflexivity|].
    rewrite filter_cons. case_decide; [lia|assumption].
Qed.

(** A callable of an accepted form: Run returns, its count is the number
    of calls it made, and the calls are a dispatch pass over the resolved
    order. *)
Lemma Run_accepted tc fn f w :
  accepted tc fn f ->
  exists new w',
    Run tc (ArgFunc fn) w = Ok (Z.of_nat (length new)) w'
    /\ w_calls w' = w_calls w ++ new
    /\ w_runorder w' = w_runorder w
    /\ dispatched tc (expectsIndex f)
         (resolved_order tc (w_runorder w) (w_source w)) new
    /\ (expectsResult f = false -> Forall (fun c => returned_false c = false) new).
Proof.
  intros Hacc. destruct (accepted_checks tc fn f w Hacc) as (Hin & Hout & Hok).
  unfold Run, bind. rewrite Hin, Hout.
  destruct (decide (length (cases tc) = 0%nat)) as [Hz|Hnz].
  { exists [], w. unfold ret, dispatched. simpl.
    rewrite resolved_order_no_cases by now apply nil_length_inv.
    rewrite app_nil_r. repeat split; auto using pass_over_nil.
    apply pass_over_nil. }
  unfold runOrder_flag, dispatched, resolved_order. rewrite runOrder_parse.
  destruct (decide (parse_override (w_runorder w) = [])) as [He|Hne].
  - rewrite bool_decide_eq_false_2 by tauto.
    destruct (InOrder tc).
    + rewrite run_inorder_loop_dispatch by lia. simpl Z.to_nat.
      rewrite <- pairs_of_inorder.
      destruct (dispatch_spec fn (expectsIndex f) _ Hok
                  (pairs_of tc (Z.of_nat <$> seq 0 (length (cases tc)))) 0 w)
        as (new & w' & -> & Hc & Hro & _ & HP & HNF).
      rewrite pairs_of_args in HP by apply in_range_seq.
      exists new, w'. auto.
    + unfold rand_Perm.
      rewrite run_perm_loop_dispatch by apply in_range_Perm.
      match goal with
      | |- context [dispatch _ _ _ ?todo 0 ?w1] =>
          destruct (dispatch_spec fn (expectsIndex f) _ Hok todo 0 w1)
            as (new & w' & -> & Hc & Hro & _ & HP & HNF)
      end.
      rewrite pairs_of_args in HP by apply in_range_Perm.
      exists new, w'. auto.
  - rewrite bool_decide_eq_true_2 by assumption.
    rewrite run_flag_loop_dispatch.
    match goal with
    | |- context [dispatch _ _ _ ?todo 0 w] =>
        destruct (dispatch_spec fn (expectsIndex f) _ Hok todo 0 w)
          as (new & w' & -> & Hc & Hro & _ & HP & HNF)
    end.
    rewrite pairs_of_args in HP by apply in_range_filter.
    exists new, w'. auto.
Qed.

Lemma check_in_reason tc (ft : FuncType) w p w' :
  check_in tc ft w = Panicked p w' -> validation_reason p.
Proof.
  unfold check_in, validation_reason, panic, ret.
  destruct (NumIn ft) as [|[|[|n]]]; repeat case_decide;
    intros Hp; inversion Hp; tauto.
Qed.

Lemma check_out_reason (ft : FuncType) w p w' :
  check_out ft w = Panicked p w' -> validation_reason p.
Proof.
  unfold check_out, validation_reason, panic, ret.
  destruct (NumOut ft) as [|[|n]]; repeat case_decide;
    intros Hp; inversion Hp; tauto.
Qed.

(** Whatever the argument, either the validation of Run fails, with a
    panic that leaves the world as it was, or the argument is a function
    with the parameter and result types of one of the four forms. *)
Lemma Run_outcome tc (function : Arg St) w :
  (exists p, Run tc function w = Panicked p w
             /\ shape_invalid (vType tc) function
             /\ validation_reason p)
  \/ (exists fn f, function = ArgFunc fn /\ shaped tc fn f).
Proof.
  destruct function as [x|fn].
  - left. destruct x; eexists; (split; [reflexivity|split; [exact I|red; tauto]]).
  - unfold Run, bind.
    destruct (check_in_cases tc (fn_type fn) w)
      as [(tp & T & HT & Hins & Hin)|(p & Hp & Hbad)].
    + destruct (check_out_cases (fn_type fn) w)
        as [(r & Houts & Hout)|(p & Hp & Hbad)].
      * right. exists fn.
        destruct (checks_shaped tc fn tp r w w w Hin Hout) as (f & Hf & _).
        eauto.
      * left. exists p. rewrite Hin, Hp. split; [reflexivity|].
        split; [simpl; tauto|]. eapply check_out_reason; eassumption.
    + left. exists p. rewrite Hp. split; [reflexivity|].
      split; [simpl; tauto|]. eapply check_in_reason; eassumption.
Qed.


(** *** The resolved order *)

Lemma resolved_order_in_range tc flag src :
  Forall (fun idx => 0 <= idx < Z.of_nat (length (cases tc)))
         (resolved_order tc flag src).
Proof.
  unfold resolved_order. destruct (decide (parse_override flag = [])).
  - destruct (InOrder tc); [apply in_range_seq|apply in_range_Perm].
  - apply in_range_filter.
Qed.

Lemma resolved_order_no_override tc flag src :
  parse_override flag = [] ->
  resolved_order tc flag src ≡ₚ Z.of_nat <$> seq 0 (length (cases tc))
  /\ (InOrder tc = true ->
      resolved_order tc flag src = Z.of_nat <$> seq 0 (length (cases tc)))
  /\ (InOrder tc = false ->
      resolved_order tc flag src = Z.of_nat <$> rand.Perm src (length (cases tc))).
Proof.
  intros He. unfold resolved_order. rewrite decide_True by assumption.
  destruct (InOrder tc); repeat split; try discriminate; auto.
  now rewrite Perm_is_permutation.
Qed.

Lemma resolved_order_override tc flag src :
  parse_override flag <> [] ->
  resolved_order tc flag src
  = filter (fun idx => 0 <= idx < Z.of_nat (length (cases tc))) (parse_override flag).
Proof. intros Hne. unfold resolved_order. now rewrite decide_False. Qed.

(** A pass in which no call answered false covers the whole order. *)
Lemma dispatched_complete tc tp order new :
  dispatched tc tp order new ->
  Forall (fun c => returned_false c = false) new ->
  length new = length order /\ map c_params new = map (args_of tc tp) order.
Proof.
  intros (Hlen & Hpar & _ & Hall) HF. specialize (Hall HF).
  rewrite length_map in Hall. split; [assumption|].
  rewrite Hpar, Hall, <- (length_map (args_of tc tp)). apply firstn_all.
Qed.

(** *** Functions that pass the validation and cannot be called *)





(** Whether it ran the body or not, a call of Run's leaves the results
    readable: under the result types of the validation, runTest answers
    or panics inside [fn.Call]. *)
Lemma runTest_outcomes fn idx v (tp r : bool) w :
  ft_out (fn_type fn) = (if r then [TBool] else []) ->
  (exists b w', runTest fn idx v tp r w = Ok b w')
  \/ (exists p, runTest fn idx v tp r w = Panicked p w /\ call_reason p).
Proof.
  intros Hout. unfold runTest, bind, Call.
  destruct (fn_nil fn); [right; eexists; split; [reflexivity|red; tauto]|].
  destruct (call_args (fn_type fn) _) as [args|];
    [|right; eexists; split; [reflexivity|red; tauto]].
  destruct (fn_body fn args (w_state w)) as [s1 b]. rewrite Hout.
  left. destruct r; simpl; eauto.
Qed.

Lemma dispatch_outcomes fn (tp r : bool) :
  ft_out (fn_type fn) = (if r then [TBool] else []) ->
  forall todo count w,
    (exists count' w', dispatch fn tp r todo count w = Ok count' w')
    \/ (exists p w', dispatch fn tp r todo count w = Panicked p w' /\ call_reason p).
Proof.
  intros Hout. induction todo as [|[idx v] rest IH]; intros count w.
  - left. simpl. unfold ret. eauto.
  - cbn [dispatch fst snd]. unfold bind.
    destruct (runTest_outcomes fn idx v tp r w Hout) as [(b & w1 & ->)|(p & -> & Hp)].
    + destruct b; simpl; [apply IH|]. left. unfold ret. eauto.
    + right. eauto.
Qed.

(** Past the validation Run is one dispatch pass over the pairs of the
    resolved order, from a world in which nothing was called yet. *)
Lemma Run_shaped_dispatch tc fn f w :
  shaped tc fn f ->
  exists w0,
    w_calls w0 = w_calls w /\ w_state w0 = w_state w
    /\ Run tc (ArgFunc fn) w
       = dispatch fn (expectsIndex f) (expectsResult f)
           (pairs_of tc (resolved_order tc (w_runorder w) (w_source w))) 0 w0.
Proof.
  intros Hsh. destruct (shaped_checks tc fn f w Hsh) as (Hin & Hout & _).
  unfold Run, bind. rewrite Hin, Hout.
  destruct (decide (length (cases tc) = 0%nat)) as [Hz|Hnz].
  { exists w. rewrite resolved_order_no_cases by now apply nil_length_inv. auto. }
  unfold runOrder_flag, resolved_order. rewrite runOrder_parse.
  destruct (decide (parse_override (w_runorder w) = [])) as [He|Hne].
  - rewrite bool_decide_eq_false_2 by tauto.
    destruct (InOrder tc).
    + exists w. rewrite run_inorder_loop_dispatch by lia. simpl Z.to_nat.
      now rewrite <- pairs_of_inorder.
    + unfold rand_Perm. eexists. split; [|split]; cycle 2.
      * apply run_perm_loop_dispatch, in_range_Perm.
      * reflexivity.
      * reflexivity.
  - rewrite bool_decide_eq_true_2 by assumption.
    exists w. now rewrite run_flag_loop_dispatch.
Qed.


(** A function past the validation: Run returns or panics inside
    [fn.Call]. *)
Lemma Run_shaped_outcomes tc fn f w :
  shaped tc fn f ->
  (exists count w', Run tc (ArgFunc fn) w = Ok count w')
  \/ (exists p w', Run tc (ArgFunc fn) w = Panicked p w' /\ call_reason p).
Proof.
  intros Hsh. destruct (Run_shaped_dispatch tc fn f w Hsh) as (w0 & _ & _ & ->).
  destruct (shaped_checks tc fn f w Hsh) as (_ & _ & Hout).
  apply dispatch_outcomes, Hout.
Qed.

End DispatchFacts.

(** ** Properties of Run: order and count *)

Section RunOrderClaims.

Context {St : Type}.
Implicit Types (fn : FuncValue St) (w : World St) (tc : Test).

(** C1, as amended.  When no external override is in effect (the flag is
    absent, empty, or none of its tokens parses), a callable of an
    accepted form that never answers false, or has no result at all, is
    invoked exactly len(cases) times, and the calls are those of an order
    that is a permutation of 0, ..., len(cases)-1: every case index is
    delivered exactly once, in the in-order mode and in the random mode. *)
Theorem Run_covers_every_case_without_override tc fn f w :
  accepted tc fn f ->
  parse_override (w_runorder w) = [] ->
  exists new w' order,
    Run tc (ArgFunc fn) w = Ok (Z.of_nat (length new)) w'
    /\ w_calls w' = w_calls w ++ new
    /\ order ≡ₚ Z.of_nat <$> seq 0 (length (cases tc))
    /\ (expectsResult f = false -> Forall (fun c => returned_false c = false) new)
    /\ (Forall (fun c => returned_false c = false) new ->
        length new = length (cases tc)
        /\ map c_params new = map (args_of tc (expectsIndex f)) order).
Proof.
  intros Hacc Hno.
  destruct (Run_accepted tc fn f w Hacc) as (new & w' & HR & Hc & _ & HD & HNF).
  destruct (resolved_order_no_override tc _ (w_source w) Hno) as (Hperm & _).
  exists new, w', (resolved_order tc (w_runorder w) (w_source w)).
  repeat split; auto.
  - destruct (dispatched_complete _ _ _ _ HD H) as [Hlen _].
    rewrite Hlen, Hperm, length_fmap. apply length_seq.
  - now destruct (dispatched_complete _ _ _ _ HD H).
Qed.



Lemma Run_override_ignores_InOrder cs vt (b1 b2 : bool) fn w :
  parse_override (w_runorder w) <> [] ->
  Run (mkTest cs vt b1) (ArgFunc fn) w = Run (mkTest cs vt b2) (ArgFunc fn) w.
Proof.
  intros Hov.
  assert (Heq : check_in (mkTest cs vt b2) (fn_type fn) w
                = check_in (mkTest cs vt b1) (fn_type fn) w) by reflexivity.
  unfold Run, bind. rewrite Heq. cbn [cases InOrder].
  destruct (check_in_cases (mkTest cs vt b1) (fn_type fn) w)
    as [(tp & T & _ & _ & ->)|(p & -> & _)]; [|reflexivity].
  destruct (check_out_cases (fn_type fn) w)
    as [(r & _ & ->)|(p & -> & _)]; [|reflexivity].
  destruct (decide (length cs = 0%nat)); [reflexivity|].
  unfold runOrder_flag. rewrite runOrder_parse.
  rewrite bool_decide_eq_true_2 by assumption.
  now rewrite !run_flag_loop_dispatch.
Qed.

(** C5.  The precedence of the order sources.  runOrder splits the flag
    on commas and keeps the tokens that parse, in order; the override is
    in effect exactly when that list is non-empty.  An absent or empty
    flag, or one whose tokens all fail to parse, is not in effect.  A
    non-empty list decides the order whatever InOrder is; otherwise
    InOrder gives 0, ..., len(cases)-1, and without it the order is the
    random permutation. *)
Theorem order_precedence :
  (forall flag,
      runOrder flag = (parse_override flag, bool_decide (parse_override flag <> [])))
  /\ parse_override None = []
  /\ parse_override (Some EmptyString) = []
  /\ (forall s, Forall (fun tok => strconv.ParseInt tok = None) (strings.Split s) ->
            parse_override (Some s) = [])
  /\ (forall tc fn f w, accepted tc fn f ->
        exists new w',
          Run tc (ArgFunc fn) w = Ok (Z.of_nat (length new)) w'
          /\ w_calls w' = w_calls w ++ new
          /\ (parse_override (w_runorder w) <> [] ->
              dispatched tc (expectsIndex f)
                (filter (fun idx => 0 <= idx < Z.of_nat (length (cases tc)))
                   (parse_override (w_runorder w))) new
              /\ forall b, Run (mkTest (cases tc) (vType tc) b) (ArgFunc fn) w
                           = Run tc (ArgFunc fn) w)
          /\ (parse_override (w_runorder w) = [] -> InOrder tc = true ->
              dispatched tc (expectsIndex f)
                (Z.of_nat <$> seq 0 (length (cases tc))) new)
          /\ (parse_override (w_runorder w) = [] -> InOrder tc = false ->
              dispatched tc (expectsIndex f)
                (Z.of_nat <$> rand.Perm (w_source w) (length (cases tc))) new
              /\ rand.Perm (w_source w) (length (cases tc))
                 ≡ₚ seq 0 (length (cases tc)))).
Proof.
  split; [exact runOrder_parse|]. split; [reflexivity|]. split; [reflexivity|].
  split.
  - intros s. unfold parse_override. generalize (strings.Split s).
    induction 1 as [|tok rest Htok _ IH]; [reflexivity|]. simpl. now rewrite Htok.
  - intros tc fn f w Hacc.
    destruct (Run_accepted tc fn f w Hacc) as (new & w' & HR & Hc & _ & HD & _).
    exists new, w'. split; [assumption|]. split; [assumption|].
    split; [|split].
    + intros Hov. rewrite resolved_order_override in HD by assumption.
      split; [assumption|]. intros b. destruct tc as [cs vt b0].
      now apply Run_override_ignores_InOrder.
    + intros Hno Hin.
      destruct (resolved_order_no_override tc _ (w_source w) Hno) as (_ & He & _).
      now rewrite (He Hin) in HD.
    + intros Hno Hin.
      destruct (resolved_order_no_override tc _ (w_source w) Hno) as (_ & _ & He).
      rewrite (He Hin) in HD. split; [assumption|]. apply Perm_is_permutation.
Qed.


(** C10.  Every call Run makes to a two-parameter callable gets a pair
    (i, cases[i]): an index of the collection and the case at this very
    position, in each order mode. *)
Theorem Run_index_matches_case tc fn f w :
  accepted tc fn f ->
  expectsIndex f = true ->
  exists new w',
    Run tc (ArgFunc fn) w = Ok (Z.of_nat (length new)) w'
    /\ w_calls w' = w_calls w ++ new
    /\ Forall (fun c => exists i v,
                 c_params c = [ValueOf_int i; v]
                 /\ 0 <= i < Z.of_nat (length (cases tc))
                 /\ cases tc !! Z.to_nat i = Some v) new.
Proof.
  intros Hacc Htp.
  destruct (Run_accepted tc fn f w Hacc) as (new & w' & HR & Hc & _ & HD & _).
  exists new, w'. split; [assumption|]. split; [assumption|].
  destruct HD as (_ & Hpar & _). rewrite Htp in Hpar.
  pose proof (resolved_order_in_range tc (w_runorder w) (w_source w)) as Hrange.
  apply Forall_lookup. intros j c Hj.
  assert (Hcp : map c_params new !! j = Some (c_params c))
    by now rewrite list_lookup_fmap, Hj.
  rewrite Hpar in Hcp. apply lookup_take_Some in Hcp as [Hcp _].
  rewrite list_lookup_fmap in Hcp.
  destruct (resolved_order tc (w_runorder w) (w_source w) !! j) as [i|] eqn:Hi;
    [|discriminate].
  injection Hcp as Hcp.
  pose proof (Forall_lookup_1 _ _ _ _ Hrange Hi) as Hin. simpl in Hin.
  destruct (lookup_lt_is_Some_2 (cases tc) (Z.to_nat i)) as [v Hv]; [lia|].
  exists i, v. split; [|auto]. rewrite <- Hcp. unfold args_of. now rewrite Hv.
Qed.

End RunOrderClaims.

(** ** Building the collection *)

Section CasesFacts.

Lemma Cases_loop_typed (testcases : list Iface) (i : nat) (tc0 : Test) (T : GoType) :
  vType tc0 = Some T ->
  (exists p, Cases_loop i testcases tc0 = inl p
             /\ (INil ∈ testcases
                 \/ exists j v, testcases !! j = Some (IVal v) /\ v_type v <> T))
  \/ (exists vs, testcases = IVal <$> vs
             /\ Forall (fun v => v_type v = T) vs
             /\ Cases_loop i testcases tc0
                = inr (mkTest (cases tc0 ++ vs) (Some T) (InOrder tc0))).
Proof.
  revert i tc0. induction testcases as [|x rest IH]; intros i tc0 HT.
  - right. exists []. rewrite app_nil_r. destruct tc0 as [cs vt b].
    simpl in *. subst. auto.
  - destruct x as [|v]; simpl.
    + left. eexists. split; [reflexivity|]. left. apply elem_of_cons. auto.
    + rewrite HT. destruct (decide (v_type v <> T)) as [Hne|He].
      * left. eexists. split; [reflexivity|]. right. exists 0%nat, v. auto.
      * apply dec_stable in He.
        destruct (IH (S i) (mkTest (cases tc0 ++ [v]) (Some T) (InOrder tc0)) eq_refl)
          as [(p & Hp & Hbad)|(vs & -> & HF & Hok)].
        -- left. exists p. split; [assumption|].
           destruct Hbad as [Hnil|(j & v' & Hj & Hne)].
           ++ left. apply elem_of_cons. auto.
           ++ right. exists (S j), v'. auto.
        -- right. exists (v :: vs). split; [reflexivity|]. split; [auto|].
           rewrite Hok. simpl. now rewrite <- app_assoc.
Qed.

(** The inputs are all valid and all of the type [T]. *)
Lemma typed_inputs_not_bad (vs : list Value) (T : GoType) :
  Forall (fun v => v_type v = T) vs ->
  (INil ∉ (IVal <$> vs))
  /\ (forall j v, (IVal <$> vs) !! j = Some (IVal v) -> v_type v = T).
Proof.
  intros HF. split.
  - intros (v & Hv & _)%list_elem_of_fmap. discriminate.
  - intros j v Hj. rewrite list_lookup_fmap in Hj.
    destruct (vs !! j) as [v'|] eqn:Hv'; [|discriminate].
    injection Hj as ->. exact (Forall_lookup_1 _ _ _ _ HF Hv').
Qed.

(** C8.  Cases aborts exactly when some element is the nil interface (an
    invalid value) or some element after the first has a type other than
    the type of the first; otherwise it returns the collection whose
    cases are the inputs in their order, whose element type is the type
    of the first input, and whose InOrder is false. *)
Theorem Cases_aborts_iff (testcases : list Iface) :
  ((exists p, Cases testcases = inl p) <-> rejected_inputs testcases)
  /\ (~ rejected_inputs testcases ->
      exists tc, Cases testcases = inr tc
                 /\ IVal <$> cases tc = testcases
                 /\ vType tc = v_type <$> head (cases tc)
                 /\ InOrder tc = false).
Proof.
  unfold rejected_inputs. destruct testcases as [|[|v0] rest].
  - split.
    + split.
      * intros (p & Hp). discriminate.
      * intros [Hnil|(v0 & j & v & H0 & _)]; [|discriminate].
        now apply elem_of_nil in Hnil.
    + intros _. eexists. split; [reflexivity|]. auto.
  - assert (Hbad : INil ∈ INil :: rest) by (apply elem_of_cons; auto).
    split.
    + split; [auto|]. intros _. eexists. reflexivity.
    + intros Hn. tauto.
  - unfold Cases. cbn [Cases_loop ValueOf vType cases InOrder app].
    destruct (Cases_loop_typed rest 1 (mkTest [v0] (Some (v_type v0)) false)
                (v_type v0) eq_refl)
      as [(p & Hp & Hbad)|(vs & -> & HF & Hok)].
    + assert (Hbad' : INil ∈ IVal v0 :: rest
                      \/ (exists v1 j v, (IVal v0 :: rest) !! 0%nat = Some (IVal v1)
                            /\ (IVal v0 :: rest) !! S j = Some (IVal v)
                            /\ v_type v <> v_type v1)).
      { destruct Hbad as [Hnil|(j & v & Hj & Hne)].
        - left. apply elem_of_cons. auto.
        - right. exists v0, j, v. auto. }
      rewrite Hp. split.
      * split; [auto|]. intros _. eauto.
      * intros Hn. tauto.
    + rewrite Hok. cbn [cases InOrder app].
      destruct (typed_inputs_not_bad vs (v_type v0) HF) as [Hnil Hty].
      split.
      * split.
        -- intros (p & Hp). discriminate.
        -- intros [Hin|(v1 & j & v & H0 & Hj & Hne)].
           ++ apply elem_of_cons in Hin as [Hin|Hin]; [discriminate|tauto].
           ++ simpl in H0, Hj. injection H0 as <-. apply Hty in Hj. tauto.
      * intros _. eexists. split; [reflexivity|]. auto.
Qed.

End CasesFacts.

(** ** Run on a collection without cases *)

Section EmptyCollection.

Context {St : Type}.
Implicit Types (fn : FuncValue St) (w : World St) (tc : Test).

Lemma Cases_nil tc : Cases [] = inr tc -> tc = mkTest [] None false.
Proof. intros H. injection H as <-. reflexivity. Qed.

(** C9.  On a collection built from zero elements the element type is nil,
    and the validation, which comes before the test for an empty
    collection, compares the parameter type with it: Run panics for every
    function of one or two parameters, whatever InOrder is. *)
Theorem Run_empty_collection_panics tc (inorder : bool) fn w :
  Cases [] = inr tc ->
  (NumIn (fn_type fn) = 1 \/ NumIn (fn_type fn) = 2)%nat ->
  vType tc = None
  /\ exists p,
      Run (mkTest (cases tc) (vType tc) inorder) (ArgFunc fn) w = Panicked p w
      /\ (p = IncorrectParameter \/ p = IncorrectParameterOne
          \/ p = IncorrectParameterTwo).
Proof.
  intros ->%Cases_nil Harity. split; [reflexivity|].
  unfold Run, bind, check_in, NumIn, In in *. cbn [cases vType].
  destruct (fn_type fn) as [ins outs]. cbn [ft_in] in *.
  destruct ins as [|a [|b [|c ins]]]; simpl in Harity; try lia; simpl.
  - eexists. split; [reflexivity|]. auto.
  - destruct (decide (Some a <> Some TypeOf_int));
      eexists; (split; [reflexivity|]); auto.
Qed.

(** C6, as amended.  On a collection built from zero elements Run never
    invokes its argument (the world comes back as it was), and the shape
    validation comes first: Run aborts when the argument is not a
    function, when its parameter count is not 1 or 2, when its return
    count exceeds 1 and when its single return type is not bool; when Run
    does not abort it returns 0. *)
Theorem Run_empty_validates_first tc (inorder : bool) (function : Arg St) w :
  Cases [] = inr tc ->
  (Run (mkTest (cases tc) (vType tc) inorder) function w = Ok 0 w
   \/ exists p, Run (mkTest (cases tc) (vType tc) inorder) function w = Panicked p w)
  /\ (match function with
      | ArgIface _ => True
      | ArgFunc fn =>
          (NumIn (fn_type fn) <> 1 /\ NumIn (fn_type fn) <> 2)%nat
          \/ (1 < NumOut (fn_type fn))%nat
          \/ (NumOut (fn_type fn) = 1%nat /\ Out (fn_type fn) 0 <> Some TBool)
      end ->
      exists p, Run (mkTest (cases tc) (vType tc) inorder) function w = Panicked p w).
Proof.
  intros ->%Cases_nil. cbn [cases vType].
  destruct (Run_outcome (mkTest [] None inorder) function w)
    as [(p & Hp & _)|(fn & f & _ & T & HT & _)]; [|discriminate].
  split; [right|intros _]; eauto.
Qed.

End EmptyCollection.

(** ** Concrete inputs *)

Lemma accepted_form_A : accepted Sample.four_cases (Sample.form_A TString) FormA.
Proof. exists TString. repeat split. Qed.

Lemma accepted_form_C : accepted Sample.four_cases (Sample.form_C TString) FormC.
Proof. exists TString. repeat split. Qed.

Lemma accepted_form_D z : accepted Sample.four_cases (Sample.form_D TString z) FormD.
Proof. exists TString. repeat split. Qed.

(** C1 fails under an external override: on the four cases built from four
    strings, with the override 1,3,1, a callable without a result, which
    cannot answer false, is called three times, with the indices 1, 3 and
    1; the indices 0 and 2 are never delivered. *)
Lemma Run_override_counterexample :
  Cases Sample.four = inr Sample.four_cases
  /\ accepted Sample.four_cases (Sample.form_C TString) FormC
  /\ exists w',
      Run Sample.four_cases (ArgFunc (Sample.form_C TString))
        (Sample.world0 (Some "1,3,1"%string)) = Ok 3 w'
      /\ map c_params (w_calls w')
         = map (args_of Sample.four_cases true) [1; 3; 1]
      /\ 3 <> Z.of_nat (length (cases Sample.four_cases))
      /\ ~ map c_params (w_calls w')
            ≡ₚ map (args_of Sample.four_cases true) [0; 1; 2; 3].
Proof.
  split; [reflexivity|]. split; [exact accepted_form_C|].
  eexists. split; [vm_compute; reflexivity|].
  split; [vm_compute; reflexivity|]. split; [vm_compute; discriminate|].
  intros HP. apply Permutation_length in HP. vm_compute in HP. discriminate.
Qed.

(** C6 fails: on the collection built from zero elements Run validates its
    argument and panics, for a value that is not a function and for a
    function without parameters. *)
Lemma Run_empty_counterexample :
  Cases [] = inr (mkTest [] None false)
  /\ Run (mkTest [] None false) (ArgIface (IVal (mkValue TInt (DInt 5))))
       (Sample.world0 None)
     = Panicked NotAFunction (Sample.world0 None)
  /\ Run (mkTest [] None false)
       (ArgFunc (mkFunc (mkFuncType [] [] false) false (Sample.log_body 0)))
       (Sample.world0 None)
     = Panicked IncorrectNumberOfParameters (Sample.world0 None).
Proof. repeat split. Qed.

Lemma accepted_in_order_D z :
  accepted Sample.four_in_order (Sample.form_D TString z) FormD.
Proof. exists TString. repeat split. Qed.

Lemma Run_covers_every_case_without_override_witness :
  accepted Sample.four_cases (Sample.form_C TString) FormC
  /\ parse_override (w_runorder (Sample.world0 None)) = []
  /\ exists (new : list CallRecord) w',
      Run Sample.four_cases (ArgFunc (Sample.form_C TString)) (Sample.world0 None)
      = Ok (Z.of_nat (length new)) w'
      /\ length new = 4%nat.
Proof.
  split; [exact accepted_form_C|]. split; [reflexivity|].
  destruct (Run_covers_every_case_without_override
              Sample.four_cases (Sample.form_C TString) FormC (Sample.world0 None)
              accepted_form_C eq_refl)
    as (new & w' & order & HR & _ & _ & Hnf & Hall).
  exists new, w'. split; [exact HR|]. apply Hall, Hnf. reflexivity.
Defined.



Lemma Run_empty_collection_panics_witness :
  Cases [] = inr (mkTest [] None false)
  /\ (NumIn (fn_type (Sample.form_A TString)) = 1
      \/ NumIn (fn_type (Sample.form_A TString)) = 2)%nat
  /\ exists p,
      Run (mkTest [] None true) (ArgFunc (Sample.form_A TString)) (Sample.world0 None)
      = Panicked p (Sample.world0 None).
Proof.
  split; [reflexivity|]. split; [left; reflexivity|].
  destruct (Run_empty_collection_panics
              (mkTest [] None false) true (Sample.form_A TString) (Sample.world0 None)
              eq_refl (or_introl eq_refl))
    as (_ & p & Hp & _).
  exists p. exact Hp.
Defined.

Lemma Run_empty_validates_first_witness :
  Cases [] = inr (mkTest [] None false)
  /\ exists p,
      Run (mkTest [] None false) (ArgIface INil) (Sample.world0 None)
      = Panicked p (Sample.world0 None).
Proof.
  split; [reflexivity|].
  destruct (Run_empty_validates_first
              (mkTest [] None false) false (ArgIface INil) (Sample.world0 None) eq_refl)
    as (_ & Hbad).
  exact (Hbad I).
Defined.

Lemma Run_index_matches_case_witness :
  accepted Sample.four_cases (Sample.form_D TString 2) FormD
  /\ expectsIndex FormD = true
  /\ exists (new : list CallRecord) w',
      Run Sample.four_cases (ArgFunc (Sample.form_D TString 2))
        (Sample.world0 (Some "3,0,7,3"%string))
      = Ok (Z.of_nat (length new)) w'
      /\ Forall (fun c => exists i v,
                   c_params c = [ValueOf_int i; v]
                   /\ 0 <= i < 4
                   /\ cases Sample.four_cases !! Z.to_nat i = Some v) new.
Proof.
  split; [exact (accepted_form_D 2)|]. split; [reflexivity|].
  destruct (Run_index_matches_case
              Sample.four_cases (Sample.form_D TString 2) FormD
              (Sample.world0 (Some "3,0,7,3"%string)) (accepted_form_D 2) eq_refl)
    as (new & w' & HR & _ & HF).
  exists new, w'. split; [exact HR|exact HF].
Defined.

(** ** The run as a function of the resolved order *)

Section RunFunctional.

Context {St : Type}.
Implicit Types (fn : FuncValue St) (w : World St) (tc : Test).

Lemma dispatch_pass_log fn tp r :
  out_ok fn r ->
  forall todo count w,
    dispatch fn tp r todo count w
    = let res := pass_log fn r (map (params_of tp) todo) (w_state w) in
      Ok (count + Z.of_nat (length (fst res)))
         (mkWorld (snd res) (w_runorder w) (w_source w) (w_calls w ++ fst res)).
Proof.
  intros Hout. induction todo as [|[idx v] rest IH]; intros count w.
  - destruct w. simpl. unfold ret. now rewrite Z.add_0_r, app_nil_r.
  - cbn [dispatch map pass_log fst snd]. unfold bind, runTest, bind, Call.
    cbv beta zeta.
    change ((if tp then [ValueOf_int idx] else []) ++ [v])
      with (params_of tp (idx, v)).
    generalize (params_of tp (idx, v)). intros a.
    destruct Hout as (Hnil & Hvar & Hout). unfold call_args. rewrite Hnil, Hvar.
    destruct (fn_body fn a (w_state w)) as [s1 b].
    rewrite Hout. unfold bind.
    destruct r, b; simpl; unfold ret; try reflexivity;
      rewrite IH; simpl;
      destruct (pass_log fn _ (map (params_of tp) rest) s1) as [cs s2]; simpl;
      rewrite <- app_assoc; simpl; f_equal; lia.
Qed.

(** Run under a callable of an accepted form, written out: the count, the
    log, the state and the random source it leaves. *)
Lemma Run_explicit tc fn f w :
  accepted tc fn f ->
  Run tc (ArgFunc fn) w
  = let res := pass_log fn (expectsResult f)
                 (map (args_of tc (expectsIndex f))
                    (resolved_order tc (w_runorder w) (w_source w)))
                 (w_state w) in
    Ok (Z.of_nat (length (fst res)))
       (mkWorld (snd res) (w_runorder w)
          (if decide (parse_override (w_runorder w) = [] /\ InOrder tc = false
                      /\ cases tc <> [])
           then fun k => w_source w (k + length (cases tc))%nat
           else w_source w)
          (w_calls w ++ fst res)).
Proof.
  intros Hacc. destruct (accepted_checks tc fn f w Hacc) as (Hin & Hout & Hok).
  unfold Run, bind. rewrite Hin, Hout.
  destruct (decide (length (cases tc) = 0%nat)) as [Hz|Hnz].
  { apply nil_length_inv in Hz.
    rewrite resolved_order_no_cases by assumption. simpl.
    rewrite decide_False by tauto. destruct w. simpl. unfold ret.
    now rewrite app_nil_r. }
  assert (Hne : cases tc <> []) by (intros He; now rewrite He in Hnz).
  unfold runOrder_flag, resolved_order. rewrite runOrder_parse.
  destruct (decide (parse_override (w_runorder w) = [])) as [He|Hov].
  - rewrite bool_decide_eq_false_2 by tauto.
    destruct (InOrder tc) eqn:Hio.
    + rewrite decide_False by (intros (_ & ? & _); discriminate).
      rewrite run_inorder_loop_dispatch by lia. simpl Z.to_nat.
      rewrite <- pairs_of_inorder, (dispatch_pass_log fn _ _ Hok).
      rewrite pairs_of_args by apply in_range_seq. reflexivity.
    + rewrite decide_True by tauto. unfold rand_Perm.
      rewrite run_perm_loop_dispatch by apply in_range_Perm.
      rewrite (dispatch_pass_log fn _ _ Hok).
      rewrite pairs_of_args by apply in_range_Perm. reflexivity.
  - rewrite bool_decide_eq_true_2 by assumption.
    rewrite decide_False by tauto.
    rewrite run_flag_loop_dispatch, (dispatch_pass_log fn _ _ Hok).
    rewrite pairs_of_args by apply in_range_filter. reflexivity.
Qed.

Lemma pass_log_state fn r args s :
  snd (pass_log fn r args s)
  = fold_left (fun st c => fst (fn_body fn (c_params c) st))
      (fst (pass_log fn r args s)) s.
Proof.
  revert s. induction args as [|a rest IH]; intros s; [reflexivity|].
  cbn [pass_log]. destruct (fn_body fn a s) as [s1 b] eqn:Hb.
  destruct (r && negb b).
  - simpl. now rewrite Hb.
  - specialize (IH s1). destruct (pass_log fn r rest s1) as [cs s2].
    simpl in *. now rewrite Hb.
Qed.

Lemma pass_log_results fn r args s i c :
  fst (pass_log fn r args s) !! i = Some c ->
  c_results c
  = results_of (ft_out (fn_type fn))
      (snd (fn_body fn (c_params c)
              (fold_left (fun st c => fst (fn_body fn (c_params c) st))
                 (take i (fst (pass_log fn r args s))) s))).
Proof.
  revert s i. induction args as [|a rest IH]; intros s i Hi; [discriminate|].
  cbn [pass_log] in *. destruct (fn_body fn a s) as [s1 b] eqn:Hb.
  destruct (r && negb b).
  - destruct i as [|i]; [|discriminate]. simpl in *. injection Hi as <-.
    simpl. now rewrite Hb.
  - specialize (IH s1). destruct (pass_log fn r rest s1) as [cs s2].
    destruct i as [|i]; simpl in *.
    + injection Hi as <-. simpl. now rewrite Hb.
    + rewrite Hb. simpl. now apply IH.
Qed.

(** X1.  Under a callable of an accepted form the only effect of Run on the
    state of the callable is that of the calls in the log, one after the
    other: the final state is the body applied to the logged argument
    lists in order, each logged result is what the body answered in the
    state the earlier calls had left, and the flag is not written. *)
Theorem Run_threads_state tc fn f w :
  accepted tc fn f ->
  exists new w',
    Run tc (ArgFunc fn) w = Ok (Z.of_nat (length new)) w'
    /\ w_calls w' = w_calls w ++ new
    /\ w_runorder w' = w_runorder w
    /\ w_state w'
       = fold_left (fun st c => fst (fn_body fn (c_params c) st)) new (w_state w)
    /\ (forall i c, new !! i = Some c ->
          c_results c
          = results_of (ft_out (fn_type fn))
              (snd (fn_body fn (c_params c)
                      (fold_left (fun st c => fst (fn_body fn (c_params c) st))
                         (take i new) (w_state w))))).
Proof.
  intros Hacc. rewrite (Run_explicit tc fn f w Hacc). cbv zeta.
  eexists. eexists. split; [reflexivity|]. cbn [w_calls w_runorder w_state].
  split; [reflexivity|]. split; [reflexivity|]. split.
  - apply pass_log_state.
  - intros i c. apply pass_log_results.
Qed.

(** X2.  Run reads the random source in the random mode only.  With an
    override in effect, with InOrder set, or without cases, the source is
    left as it was; in the random mode over a non-empty collection it has
    moved on by len(cases) draws. *)
Theorem Run_random_source tc fn f w :
  accepted tc fn f ->
  exists count w',
    Run tc (ArgFunc fn) w = Ok count w'
    /\ (parse_override (w_runorder w) <> [] \/ InOrder tc = true \/ cases tc = [] ->
        w_source w' = w_source w)
    /\ (parse_override (w_runorder w) = [] -> InOrder tc = false -> cases tc <> [] ->
        w_source w' = fun k => w_source w (k + length (cases tc))%nat).
Proof.
  intros Hacc. rewrite (Run_explicit tc fn f w Hacc). cbv zeta.
  eexists. eexists. split; [reflexivity|]. cbn [w_source]. split.
  - intros H. rewrite decide_False; [reflexivity|].
    intros (He & Hio & Hne). destruct H as [H|[H|H]]; congruence.
  - intros He Hio Hne. now rewrite decide_True.
Qed.

(** X3.  Outside the random mode a run does not depend on the random
    source: two worlds that differ in the source only give the same count,
    the same log and the same final state. *)
Theorem Run_reproducible tc fn f w (src2 : nat -> nat) :
  accepted tc fn f ->
  parse_override (w_runorder w) <> [] \/ InOrder tc = true ->
  exists count w1 w2,
    Run tc (ArgFunc fn) w = Ok count w1
    /\ Run tc (ArgFunc fn) (mkWorld (w_state w) (w_runorder w) src2 (w_calls w))
       = Ok count w2
    /\ w_calls w1 = w_calls w2
    /\ w_state w1 = w_state w2.
Proof.
  intros Hacc Hmode.
  rewrite !(Run_explicit tc fn f _ Hacc). cbv zeta. cbn [w_state w_runorder w_source w_calls].
  assert (Hord : resolved_order tc (w_runorder w) src2
                 = resolved_order tc (w_runorder w) (w_source w)).
  { unfold resolved_order.
    destruct (decide (parse_override (w_runorder w) = [])) as [He|Hne]; [|reflexivity].
    destruct Hmode as [Hov|Hio]; [contradiction|]. now rewrite Hio. }
  rewrite Hord. eexists. eexists. eexists.
  split; [reflexivity|]. split; [reflexivity|]. split; reflexivity.
Qed.

Lemma filter_length_le (n : nat) (idxs : list Z) :
  (length (filter (fun idx : Z => (0 <= idx < Z.of_nat n)%Z) idxs)
   <= length idxs)%nat.
Proof.
  induction idxs as [|idx rest IH]; [reflexivity|].
  rewrite filter_cons. case_decide; simpl; lia.
Qed.

(** X4.  The count Run returns is never negative and never above the length
    of the resolved order; it is at least 1 when that order is not empty.
    Without an override it is at most len(cases); under an override it is
    at most the number of indices parsed from the flag. *)
Theorem Run_count_bounds tc fn f w :
  accepted tc fn f ->
  exists count w',
    Run tc (ArgFunc fn) w = Ok count w'
    /\ 0 <= count
         <= Z.of_nat (length (resolved_order tc (w_runorder w) (w_source w)))
    /\ (resolved_order tc (w_runorder w) (w_source w) <> [] -> 1 <= count)
    /\ (parse_override (w_runorder w) = [] ->
        count <= Z.of_nat (length (cases tc)))
    /\ (parse_override (w_runorder w) <> [] ->
        count <= Z.of_nat (length (parse_override (w_runorder w)))).
Proof.
  intros Hacc.
  destruct (Run_accepted tc fn f w Hacc) as (new & w' & HR & _ & _ & HD & _).
  destruct HD as (Hlen & _ & _ & Hall). rewrite length_map in Hlen, Hall.
  exists (Z.of_nat (length new)), w'. split; [assumption|].
  split; [lia|]. split; [|split].
  - intros Hne. destruct new as [|c new]; [|simpl; lia].
    specialize (Hall (Forall_nil_2 _)). simpl in Hall.
    symmetry in Hall. now apply nil_length_inv in Hall.
  - intros He.
    destruct (resolved_order_no_override tc _ (w_source w) He) as (Hperm & _).
    rewrite Hperm, length_fmap, length_seq in Hlen. lia.
  - intros Hov. rewrite resolved_order_override in Hlen by assumption.
    pose proof (filter_length_le (length (cases tc)) (parse_override (w_runorder w))).
    lia.
Qed.

Lemma filter_out_of_range (n : nat) (idxs : list Z) :
  Forall (fun idx => ~ 0 <= idx < Z.of_nat n) idxs ->
  filter (fun idx => 0 <= idx < Z.of_nat n) idxs = [].
Proof.
  induction 1 as [|idx rest Hidx _ IH]; [reflexivity|].
  rewrite filter_cons. now rewrite decide_False.
Qed.

(** X5.  An override in effect is never abandoned: when every index parsed
    from the flag lies outside [0, len(cases)), Run returns 0 and calls
    nothing, whatever InOrder is; it does not fall back to another order. *)
Theorem Run_override_out_of_range tc fn f w :
  accepted tc fn f ->
  parse_override (w_runorder w) <> [] ->
  Forall (fun idx => ~ 0 <= idx < Z.of_nat (length (cases tc)))
         (parse_override (w_runorder w)) ->
  Run tc (ArgFunc fn) w = Ok 0 w.
Proof.
  intros Hacc Hov Hout. rewrite (Run_explicit tc fn f w Hacc).
  rewrite resolved_order_override by assumption.
  rewrite filter_out_of_range by assumption. simpl. rewrite decide_False by tauto.
  destruct w. simpl. now rewrite app_nil_r.
Qed.

(** X6.  Whatever the collection, the argument and the world, a panic of
    Run is a diagnostic of the shape validation or a panic of reflect
    inside [fn.Call] (a nil function, a variadic argument that cannot be
    passed): Run itself never indexes the cases out of range, not even for
    the indices of the flag, and never reads a result that is not a
    boolean. *)
Theorem Run_panic_reasons tc (function : Arg St) w p w' :
  Run tc function w = Panicked p w' ->
  (validation_reason p \/ call_reason p)
  /\ p <> IndexOutOfRange /\ p <> NotABool.
Proof.
  intros HR.
  assert (Hv : validation_reason p \/ call_reason p).
  { destruct (Run_outcome tc function w)
      as [(p0 & Hp0 & _ & Hv)|(fn & f & -> & Hsh)].
    - left. congruence.
    - right.
      destruct (Run_shaped_outcomes tc fn f w Hsh)
        as [(count & w1 & HR1)|(p1 & w1 & HR1 & Hc)]; congruence. }
  split; [assumption|].
  unfold validation_reason, call_reason in Hv.
  split; intros ->; decompose [or] Hv; discriminate.
Qed.

(** X7.  The order of the diagnostics.  The nil interface panics inside
    reflect, in [fn.Type()], before the test for a function is reached, so
    the diagnostic for a non-function is given for data only.  For a
    function the parameters are judged before the results: a wrong
    parameter count, then the first parameter of two, then the case
    parameter; a fault in the results is reported only when the parameters
    are right. *)
Theorem Run_diagnostic_order tc fn w :
  Run tc (ArgIface INil) w = Panicked TypeOfZeroValue w
  /\ (forall v, Run tc (ArgIface (IVal v)) w = Panicked NotAFunction w)
  /\ ((NumIn (fn_type fn) <> 1 /\ NumIn (fn_type fn) <> 2)%nat ->
      Run tc (ArgFunc fn) w = Panicked IncorrectNumberOfParameters w)
  /\ (NumIn (fn_type fn) = 1%nat -> In (fn_type fn) 0 <> vType tc ->
      Run tc (ArgFunc fn) w = Panicked IncorrectParameter w)
  /\ (NumIn (fn_type fn) = 2%nat -> In (fn_type fn) 0 <> Some TInt ->
      Run tc (ArgFunc fn) w = Panicked IncorrectParameterOne w)
  /\ (NumIn (fn_type fn) = 2%nat -> In (fn_type fn) 0 = Some TInt ->
      In (fn_type fn) 1 <> vType tc ->
      Run tc (ArgFunc fn) w = Panicked IncorrectParameterTwo w)
  /\ ((NumIn (fn_type fn) = 1%nat /\ In (fn_type fn) 0 = vType tc)
      \/ (NumIn (fn_type fn) = 2%nat /\ In (fn_type fn) 0 = Some TInt
          /\ In (fn_type fn) 1 = vType tc) ->
      ((1 < NumOut (fn_type fn))%nat ->
       Run tc (ArgFunc fn) w = Panicked IncorrectNumberOfOuts w)
      /\ (NumOut (fn_type fn) = 1%nat -> Out (fn_type fn) 0 <> Some TBool ->
          Run tc (ArgFunc fn) w = Panicked OutNotBoolean w)).
Proof.
  split; [reflexivity|]. split; [reflexivity|].
  unfold Run, bind, check_in, check_out, panic, ret.
  destruct (fn_type fn) as [ins outs]. unfold NumIn, NumOut, In, Out. cbn [ft_in ft_out].
  repeat split.
  - intros [H1 H2]. destruct ins as [|a [|b [|c ins]]]; simpl in *; try lia; reflexivity.
  - intros H1 Hne. destruct ins as [|a [|b ins]]; simpl in *; try lia.
    now rewrite decide_True.
  - intros H2 Hne. destruct ins as [|a [|b [|c ins]]]; simpl in *; try lia.
    now rewrite decide_True.
  - intros H2 He Hne. destruct ins as [|a [|b [|c ins]]]; simpl in *; try lia.
    rewrite decide_False by (intros Hn; now apply Hn).
    now rewrite decide_True.
  - intros Hlt.
    assert (Hout : match length outs with
                   | 0%nat | 1%nat => False | _ => True end)
      by (destruct outs as [|a [|b outs]]; simpl in *; try lia; exact I).
    destruct H as [[H1 He]|(H2 & He1 & He2)].
    + destruct ins as [|a [|b ins]]; simpl in *; try lia.
      rewrite decide_False by (intros Hn; now apply Hn).
      destruct (length outs) as [|[|n]]; tauto.
    + destruct ins as [|a [|b [|c ins]]]; simpl in *; try lia.
      rewrite decide_False by (intros Hn; now apply Hn).
      rewrite decide_False by (intros Hn; now apply Hn).
      destruct (length outs) as [|[|n]]; tauto.
  - intros H1 Hne.
    destruct outs as [|o [|o2 outs]]; simpl in *; try lia.
    destruct H as [[Hi He]|(H2 & He1 & He2)].
    + destruct ins as [|a [|b ins]]; simpl in *; try lia.
      rewrite decide_False by (intros Hn; now apply Hn).
      now rewrite decide_True.
    + destruct ins as [|a [|b [|c ins]]]; simpl in *; try lia.
      rewrite decide_False by (intros Hn; now apply Hn).
      rewrite decide_False by (intros Hn; now apply Hn).
      now rewrite decide_True.
Qed.

End RunFunctional.

(** ** More on building the collection *)

Section CasesMore.

Lemma Cases_inr_inv (testcases : list Iface) (tc : Test) :
  Cases testcases = inr tc ->
  exists vs, testcases = IVal <$> vs
             /\ tc = mkTest vs (v_type <$> head vs) false
             /\ Forall (fun v => v_type <$> head vs = Some (v_type v)) vs.
Proof.
  destruct testcases as [|[|v0] rest]; intros H.
  - injection H as <-. exists []. auto.
  - discriminate.
  - unfold Cases in H. cbn [Cases_loop ValueOf vType cases InOrder app] in H.
    destruct (Cases_loop_typed rest 1 (mkTest [v0] (Some (v_type v0)) false)
                (v_type v0) eq_refl)
      as [(p & Hp & _)|(vs & -> & HF & Hok)]; [congruence|].
    rewrite Hok in H. injection H as <-. exists (v0 :: vs). simpl.
    split; [reflexivity|]. split; [reflexivity|].
    apply Forall_cons. split; [reflexivity|].
    eapply Forall_impl; [exact HF|]. simpl. now intros v ->.
Qed.

Lemma IVal_fmap_inj (vs vs' : list Value) :
  IVal <$> vs = IVal <$> vs' -> vs = vs'.
Proof.
  revert vs'. induction vs as [|v vs IH]; intros [|v' vs'] H; try discriminate.
  - reflexivity.
  - simpl in H. injection H as -> H. f_equal. auto.
Qed.

Lemma Cases_typed (vs : list Value) :
  Forall (fun v => v_type <$> head vs = Some (v_type v)) vs ->
  Cases (IVal <$> vs) = inr (mkTest vs (v_type <$> head vs) false).
Proof.
  destruct vs as [|v0 vs]; intros HF; [reflexivity|].
  apply Forall_cons in HF as [_ HF]. simpl in HF.
  assert (HF' : Forall (fun v => v_type v = v_type v0) vs).
  { eapply Forall_impl; [exact HF|]. simpl. intros v Hv. congruence. }
  unfold Cases. cbn [fmap list_fmap Cases_loop ValueOf vType cases InOrder app head].
  destruct (Cases_loop_typed (IVal <$> vs) 1 (mkTest [v0] (Some (v_type v0)) false)
              (v_type v0) eq_refl)
    as [(p & _ & Hbad)|(vs' & Heq & _ & Hok)].
  - destruct (typed_inputs_not_bad vs (v_type v0) HF') as [Hnil Hty].
    destruct Hbad as [Hin|(j & v & Hj & Hne)]; [tauto|].
    now apply Hty in Hj.
  - apply IVal_fmap_inj in Heq. subst vs'. exact Hok.
Qed.

(** X8.  The invariant of a built collection: every case has the element
    type, the element type is nil exactly when there are no cases, and
    there are as many cases as inputs. *)
Theorem Cases_invariant (testcases : list Iface) (tc : Test) :
  Cases testcases = inr tc ->
  Forall (fun v => vType tc = Some (v_type v)) (cases tc)
  /\ (vType tc = None <-> cases tc = [])
  /\ length (cases tc) = length testcases.
Proof.
  intros (vs & -> & -> & HF)%Cases_inr_inv. cbn [cases vType].
  split; [exact HF|]. split; [|now rewrite length_fmap].
  destruct vs; simpl; split; intros H; try reflexivity; discriminate.
Qed.

Lemma Cases_loop_inl (testcases : list Iface) (i : nat) (tc0 : Test)
    (T : GoType) (p : PanicReason) :
  vType tc0 = Some T ->
  Cases_loop i testcases tc0 = inl p ->
  exists j vs,
    take j testcases = IVal <$> vs
    /\ Forall (fun v => v_type v = T) vs
    /\ ((p = InvalidTestcase (i + j) /\ testcases !! j = Some INil)
        \/ (exists v, p = TestcaseTypeMismatch T (i + j) (v_type v)
                      /\ testcases !! j = Some (IVal v) /\ v_type v <> T)).
Proof.
  revert i tc0. induction testcases as [|x rest IH]; intros i tc0 HT H; [discriminate|].
  destruct x as [|v]; simpl in H.
  - injection H as <-. exists 0%nat, []. rewrite Nat.add_0_r. auto.
  - rewrite HT in H. destruct (decide (v_type v <> T)) as [Hne|He].
    + injection H as <-. exists 0%nat, []. rewrite Nat.add_0_r.
      split; [reflexivity|]. split; [constructor|]. right. exists v. auto.
    + apply dec_stable in He.
      apply (IH (S i) (mkTest (cases tc0 ++ [v]) (Some T) (InOrder tc0)) eq_refl)
        in H as (j & vs & Htake & HF & Hp).
      exists (S j), (v :: vs). simpl. rewrite Htake.
      split; [reflexivity|]. split; [auto|].
      replace (i + S j)%nat with (S i + j)%nat by lia. exact Hp.
Qed.

(** X9.  The diagnostic of a failed construction points at the first
    offending input: the inputs before it build a collection by
    themselves, and the input at the reported index is the nil interface,
    or has the reported type, which differs from the reported expected
    type, the type of the first input. *)
Theorem Cases_diagnostic (testcases : list Iface) (p : PanicReason) :
  Cases testcases = inl p ->
  exists i tc,
    Cases (take i testcases) = inr tc
    /\ ((p = InvalidTestcase i /\ testcases !! i = Some INil)
        \/ (exists v0 v,
              p = TestcaseTypeMismatch (v_type v0) i (v_type v)
              /\ testcases !! 0%nat = Some (IVal v0)
              /\ testcases !! i = Some (IVal v)
              /\ v_type v <> v_type v0)).
Proof.
  destruct testcases as [|[|v0] rest]; intros H.
  - discriminate.
  - injection H as <-. exists 0%nat. eexists. split; [reflexivity|]. auto.
  - unfold Cases in H. cbn [Cases_loop ValueOf vType cases InOrder app] in H.
    apply (Cases_loop_inl rest 1 (mkTest [v0] (Some (v_type v0)) false)
             (v_type v0) p eq_refl)
      in H as (j & vs & Htake & HF & Hp).
    exists (S j). eexists. split.
    + cbn [take]. rewrite Htake.
      apply (Cases_typed (v0 :: vs)). apply Forall_cons. split; [reflexivity|].
      eapply Forall_impl; [exact HF|]. simpl. now intros v ->.
    + destruct Hp as [[-> Hj]|(v & -> & Hj & Hne)]; [left; auto|].
      right. exists v0, v. auto.
Qed.

(** X10.  Construction over a concatenation: the inputs [l1 ++ l2] build a
    collection exactly when [l1] and [l2] each do and, unless one of them
    is empty, their element types agree; the cases are then those of [l1]
    followed by those of [l2]. *)
Theorem Cases_app (l1 l2 : list Iface) (tc : Test) :
  Cases (l1 ++ l2) = inr tc
  <-> exists tc1 tc2,
        Cases l1 = inr tc1 /\ Cases l2 = inr tc2
        /\ (cases tc1 = [] \/ cases tc2 = [] \/ vType tc1 = vType tc2)
        /\ tc = mkTest (cases tc1 ++ cases tc2)
                  (if decide (cases tc1 = []) then vType tc2 else vType tc1)
                  false.
Proof.
  split.
  - intros (vs & Hvs & -> & HF)%Cases_inr_inv.
    symmetry in Hvs. apply fmap_app_inv in Hvs as (vs1 & vs2 & -> & -> & ->).
    apply Forall_app in HF as [HF1 HF2].
    exists (mkTest vs1 (v_type <$> head vs1) false),
           (mkTest vs2 (v_type <$> head vs2) false).
    destruct vs1 as [|a vs1].
    + simpl in *. split; [reflexivity|]. split; [now apply Cases_typed|]. auto.
    + cbn [app head fmap option_fmap option_map] in *.
      split; [now apply (Cases_typed (a :: vs1))|].
      destruct vs2 as [|b vs2].
      * split; [reflexivity|]. cbn [cases vType]. rewrite decide_False by discriminate.
        split; [auto|]. reflexivity.
      * apply Forall_cons in HF2 as [Hb HF2]. cbn [head fmap option_fmap option_map].
        split.
        { apply (Cases_typed (b :: vs2)). apply Forall_cons. split; [reflexivity|].
          eapply Forall_impl; [exact HF2|]. simpl. intros v Hv. congruence. }
        cbn [cases vType]. rewrite decide_False by discriminate.
        split; [|reflexivity]. right. right. congruence.
  - intros (tc1 & tc2 & (vs1 & -> & -> & HF1)%Cases_inr_inv
                       & (vs2 & -> & -> & HF2)%Cases_inr_inv & Hty & ->).
    cbn [cases vType] in *. rewrite <- fmap_app.
    assert (Hhead : v_type <$> head (vs1 ++ vs2)
                    = if decide (vs1 = []) then v_type <$> head vs2
                      else v_type <$> head vs1).
    { destruct vs1; [reflexivity|]. now rewrite decide_False by discriminate. }
    rewrite <- Hhead. apply Cases_typed. apply Forall_app. rewrite Hhead.
    destruct vs1 as [|a vs1]; [split; [constructor|exact HF2]|].
    rewrite decide_False by discriminate. split; [exact HF1|].
    destruct Hty as [Hty|[Hty|Hty]]; [discriminate|now subst|].
    now rewrite Hty.
Qed.

End CasesMore.

(** ** Cases, then Run *)

Section CasesThenRun.

Context {St : Type}.
Implicit Types (fn : FuncValue St) (w : World St) (tc : Test).

(** X11.  On a collection built from inputs with a first element, whatever
    InOrder is set to afterwards: for a function that is not nil and has
    the signature of one of the four forms over the type of the first
    input Run returns a count; for a function whose parameter and result
    types are those of none of the four forms it panics in the validation
    and calls nothing. *)
Theorem Run_after_Cases (testcases : list Iface) tc (v0 : Value)
    (inorder : bool) fn w :
  Cases testcases = inr tc ->
  testcases !! 0%nat = Some (IVal v0) ->
  (fn_nil fn = false ->
   (exists f, fn_type fn = form_type (v_type v0) f) ->
   exists count w',
     Run (mkTest (cases tc) (vType tc) inorder) (ArgFunc fn) w = Ok count w')
  /\ ((forall f, ft_in (fn_type fn) <> ft_in (form_type (v_type v0) f)
                 \/ ft_out (fn_type fn) <> ft_out (form_type (v_type v0) f)) ->
      exists p,
        Run (mkTest (cases tc) (vType tc) inorder) (ArgFunc fn) w = Panicked p w
        /\ validation_reason p).
Proof.
  intros (vs & -> & -> & _)%Cases_inr_inv H0. cbn [cases vType].
  destruct vs as [|a vs]; [discriminate|]. simpl in H0. injection H0 as ->.
  cbn [head fmap option_fmap option_map].
  split.
  - intros Hnil (f & Hf).
    destruct (Run_accepted (mkTest (v0 :: vs) (Some (v_type v0)) inorder) fn f w)
      as (new & w' & HR & _); [exists (v_type v0); auto|]. eauto.
  - intros Hno.
    destruct (Run_outcome (mkTest (v0 :: vs) (Some (v_type v0)) inorder) (ArgFunc fn) w)
      as [(p & Hp & _ & Hv)|(fn' & f & Heq & T & HT & Hin & Hout)]; [eauto|].
    injection Heq as <-. injection HT as <-.
    destruct (Hno f); contradiction.
Qed.

End CasesThenRun.

(** ** More on runOrder *)

Section RunOrderMore.

Lemma Split_not_nil (s : string) : strings.Split s <> [].
Proof.
  destruct s as [|c r]; simpl; [discriminate|].
  destruct (Ascii.eqb c strings.comma); [discriminate|].
  destruct (strings.Split r); discriminate.
Qed.

Lemma Split_comma_app (s1 s2 : string) :
  strings.Split (String.append s1 (String strings.comma s2))
  = strings.Split s1 ++ strings.Split s2.
Proof.
  induction s1 as [|c r IH]; simpl.
  - reflexivity.
  - rewrite IH. destruct (Ascii.eqb c strings.comma); [reflexivity|].
    pose proof (Split_not_nil r) as Hne.
    destruct (strings.Split r) as [|h t]; [contradiction|reflexivity].
Qed.

(** X12.  The flag is read field by field: the indices of a flag made of
    two parts joined by a comma are the indices of the first part followed
    by those of the second, and the override is in effect when it is for
    one of the parts. *)
Theorem runOrder_comma (s1 s2 : string) :
  fst (runOrder (Some (String.append s1 (String strings.comma s2))))
  = fst (runOrder (Some s1)) ++ fst (runOrder (Some s2))
  /\ snd (runOrder (Some (String.append s1 (String strings.comma s2))))
     = snd (runOrder (Some s1)) || snd (runOrder (Some s2)).
Proof.
  rewrite !runOrder_parse. cbn [fst snd parse_override].
  rewrite Split_comma_app, omap_app.
  split; [reflexivity|].
  destruct (omap strconv.ParseInt (strings.Split s1)),
           (omap strconv.ParseInt (strings.Split s2)); reflexivity.
Qed.

Lemma ParseUint_loop_nonneg (s : string) (n m : Z) :
  0 <= n -> strconv.ParseUint_loop s n = strconv.UintOk m -> 0 <= m.
Proof.
  revert n. induction s as [|c r IH]; intros n Hn H; simpl in H.
  - injection H as <-. assumption.
  - unfold strconv.digit_of in H.
    destruct ((48 <=? Z.of_nat (nat_of_ascii c)) && (Z.of_nat (nat_of_ascii c) <=? 57))
      eqn:Hd; [|discriminate].
    destruct (strconv.maxUint64 <? n * 10 + (Z.of_nat (nat_of_ascii c) - 48));
      [discriminate|].
    apply IH in H; [assumption|lia].
Qed.

Lemma ParseUint_nonneg (s : string) (m : Z) :
  strconv.ParseUint s = strconv.UintOk m -> 0 <= m.
Proof.
  destruct s; [discriminate|]. unfold strconv.ParseUint.
  apply ParseUint_loop_nonneg. lia.
Qed.

Lemma ParseInt_check_range (neg : bool) (un z : Z) :
  0 <= un ->
  (if negb neg && (2 ^ 63 <=? un) then None
   else if neg && (2 ^ 63 <? un) then None
   else Some (if neg then - un else un)) = Some z ->
  int64_range z.
Proof.
  unfold int64_range. intros Hun H.
  assert (Hpos : 0 < 2 ^ 63) by reflexivity.
  generalize dependent (2 ^ 63). intros c H Hpos.
  destruct neg; cbn [negb andb] in H.
  - destruct (Z.ltb_spec c un); [discriminate|]. injection H as <-. lia.
  - destruct (Z.leb_spec c un); [discriminate|]. injection H as <-. lia.
Qed.

Lemma ParseInt_range (s : string) (z : Z) :
  strconv.ParseInt s = Some z -> int64_range z.
Proof.
  destruct s as [|c r]; [discriminate|]. unfold strconv.ParseInt.
  destruct (Ascii.eqb c "+") eqn:Hp; [|destruct (Ascii.eqb c "-") eqn:Hm].
  all: match goal with
       | |- context [strconv.ParseUint ?s1] =>
           pose proof (ParseUint_nonneg s1) as Hnn;
           destruct (strconv.ParseUint s1) as [| |un]
       end; try discriminate.
  all: try (intros H; vm_compute in H; discriminate).
  all: apply ParseInt_check_range; now apply Hnn.
Qed.

Lemma omap_length_le {A B} (g : A -> option B) (l : list A) :
  (length (omap g l) <= length l)%nat.
Proof.
  induction l as [|a l IH]; [reflexivity|].
  cbn [omap list_omap]. fold (omap g l).
  destruct (g a); cbn [length]; lia.
Qed.

Lemma Split_length (s : string) :
  length (strings.Split s)
  = S (length (filter (fun c => c = strings.comma) (list_ascii_of_string s))).
Proof.
  induction s as [|c r IH]; [reflexivity|]. simpl. rewrite filter_cons.
  destruct (Ascii.eqb_spec c strings.comma) as [->|Hne].
  - rewrite decide_True by reflexivity. simpl. now rewrite IH.
  - rewrite decide_False by assumption.
    pose proof (Split_not_nil r) as Hnn.
    destruct (strings.Split r) as [|h t]; [contradiction|]. exact IH.
Qed.

(** X13.  Bounds on what runOrder returns: every index fits an int64, so
    the conversion to int loses nothing on a 64-bit platform, and there is
    at most one index for each comma-separated field of the flag, that is
    at most the number of commas plus one. *)
Theorem runOrder_bounds (s : string) :
  Forall int64_range (fst (runOrder (Some s)))
  /\ (length (fst (runOrder (Some s)))
      <= S (length (filter (fun c => c = strings.comma) (list_ascii_of_string s))))%nat.
Proof.
  rewrite runOrder_parse. cbn [fst parse_override]. split.
  - apply Forall_forall. intros z Hz.
    apply list_elem_of_omap in Hz as (tok & _ & Htok). now apply ParseInt_range in Htok.
  - rewrite <- Split_length. apply omap_length_le.
Qed.

End RunOrderMore.

(** ** The two ends of the stop signal *)

Section RunEdges.

Context {St : Type}.
Implicit Types (fn : FuncValue St) (w : World St) (tc : Test).

Lemma pass_log_first_false fn (args : list (list Value)) (s : St) (k : nat) :
  first_false_answer (answers fn args s) k ->
  length (fst (pass_log fn true args s)) = k
  /\ map c_params (fst (pass_log fn true args s)) = take k args.
Proof.
  revert s k. induction args as [|a rest IH]; intros s k (Hk & Hf & Ht).
  - discriminate.
  - cbn [answers pass_log] in *. destruct (fn_body fn a s) as [s1 b].
    destruct k as [|[|k]]; [lia| |].
    + simpl in Hf. injection Hf as ->. simpl. auto.
    + assert (b = true) as ->.
      { specialize (Ht 0%nat ltac:(lia)). simpl in Ht. congruence. }
      assert (Hf' : answers fn rest s1 !! (S k - 1)%nat = Some false).
      { replace (S (S k) - 1)%nat with (S (S k - 1)) in Hf by lia. exact Hf. }
      destruct (IH s1 (S k)) as [Hlen Hpar].
      { split; [lia|]. split; [exact Hf'|].
        intros i Hi. apply (Ht (S i)). lia. }
      cbn [andb negb]. destruct (pass_log fn true rest s1) as [cs s2].
      cbn [fst length map take] in *. now rewrite Hlen, Hpar.
Qed.

(** C2.  A boolean-returning callable of an accepted form whose body, run
    over the arguments of the resolved order from the state of the world,
    answers false for the first time on its k-th invocation: Run returns
    exactly k, and the calls it made are those of the first k positions
    of the resolved order, so no index after the stopping position is
    invoked. *)
Theorem Run_stops_at_first_false tc fn f w (k : nat) :
  accepted tc fn f ->
  expectsResult f = true ->
  first_false_answer
    (answers fn
       (map (args_of tc (expectsIndex f))
          (resolved_order tc (w_runorder w) (w_source w)))
       (w_state w)) k ->
  exists new w',
    Run tc (ArgFunc fn) w = Ok (Z.of_nat k) w'
    /\ w_calls w' = w_calls w ++ new
    /\ length new = k
    /\ map c_params new
       = map (args_of tc (expectsIndex f))
           (take k (resolved_order tc (w_runorder w) (w_source w))).
Proof.
  intros Hacc Hr Hk. rewrite (Run_explicit tc fn f w Hacc), Hr. cbv zeta.
  destruct (pass_log_first_false fn _ _ k Hk) as [Hlen Hpar].
  eexists. eexists. rewrite Hlen. split; [reflexivity|]. cbn [w_calls].
  split; [reflexivity|]. split; [assumption|].
  rewrite Hpar. symmetry. apply fmap_take.
Qed.

(** X14.  A callable without a result cannot stop the run: under the forms
    (case) and (index, case) Run calls it for every index of the resolved
    order, in every order mode, and returns the length of that order. *)
Theorem Run_no_result_runs_all tc fn f w :
  accepted tc fn f ->
  expectsResult f = false ->
  exists new w',
    Run tc (ArgFunc fn) w
    = Ok (Z.of_nat (length (resolved_order tc (w_runorder w) (w_source w)))) w'
    /\ w_calls w' = w_calls w ++ new
    /\ map c_params new
       = map (args_of tc (expectsIndex f))
           (resolved_order tc (w_runorder w) (w_source w)).
Proof.
  intros Hacc Hr.
  destruct (Run_accepted tc fn f w Hacc) as (new & w' & HR & Hc & _ & HD & HNF).
  destruct (dispatched_complete _ _ _ _ HD (HNF Hr)) as [Hlen Hpar].
  exists new, w'. rewrite <- Hlen. auto.
Qed.

(** X15.  A callable with a boolean result that answers false at once ends
    the run on its first call: when the resolved order is not empty and
    the body answers false to the arguments of its first index in the
    state of the world, Run returns 1 and the log grows by this one
    call. *)
Theorem Run_first_call_false tc fn f w (idx : Z) (rest : list Z) :
  accepted tc fn f ->
  expectsResult f = true ->
  resolved_order tc (w_runorder w) (w_source w) = idx :: rest ->
  snd (fn_body fn (args_of tc (expectsIndex f) idx) (w_state w)) = false ->
  exists w',
    Run tc (ArgFunc fn) w = Ok 1 w'
    /\ w_calls w'
       = w_calls w ++ [mkCall (args_of tc (expectsIndex f) idx)
                         [mkValue TBool (DBool false)]]
    /\ w_state w'
       = fst (fn_body fn (args_of tc (expectsIndex f) idx) (w_state w)).
Proof.
  intros Hacc Hr Hord Hfalse.
  destruct (accepted_checks tc fn f w Hacc) as (_ & _ & _ & _ & Hok).
  rewrite Hr in Hok.
  rewrite (Run_explicit tc fn f w Hacc), Hord, Hr. cbn [map pass_log].
  destruct (fn_body fn (args_of tc (expectsIndex f) idx) (w_state w)) as [s1 b].
  simpl in Hfalse. subst b. rewrite Hok. simpl.
  eexists. split; [reflexivity|]. split; reflexivity.
Qed.

End RunEdges.

(** ** Concrete inputs for the further properties *)

Lemma Run_threads_state_witness :
  accepted Sample.four_cases (Sample.form_D TString 2) FormD
  /\ exists (new : list CallRecord) w',
      Run Sample.four_cases (ArgFunc (Sample.form_D TString 2)) (Sample.world0 None)
      = Ok (Z.of_nat (length new)) w'
      /\ w_state w'
         = fold_left (fun st c => fst (Sample.log_body 2 (c_params c) st)) new [].
Proof.
  split; [exact (accepted_form_D 2)|].
  destruct (Run_threads_state
              Sample.four_cases (Sample.form_D TString 2) FormD (Sample.world0 None)
              (accepted_form_D 2))
    as (new & w' & HR & _ & _ & Hst & _).
  exists new, w'. split; [exact HR|exact Hst].
Defined.

Lemma Run_random_source_witness :
  accepted Sample.four_cases (Sample.form_C TString) FormC
  /\ exists count w',
      Run Sample.four_cases (ArgFunc (Sample.form_C TString)) (Sample.world0 None)
      = Ok count w'
      /\ w_source w' = fun k => w_source (Sample.world0 None) (k + 4)%nat.
Proof.
  split; [exact accepted_form_C|].
  destruct (Run_random_source
              Sample.four_cases (Sample.form_C TString) FormC (Sample.world0 None)
              accepted_form_C)
    as (count & w' & HR & _ & Hsrc).
  exists count, w'. split; [exact HR|].
  apply Hsrc; [reflexivity|reflexivity|discriminate].
Defined.

Lemma Run_reproducible_witness :
  accepted Sample.four_in_order (Sample.form_D TString 2) FormD
  /\ (parse_override (w_runorder (Sample.world0 None)) <> []
      \/ InOrder Sample.four_in_order = true)
  /\ exists count w1 w2,
      Run Sample.four_in_order (ArgFunc (Sample.form_D TString 2)) (Sample.world0 None)
      = Ok count w1
      /\ Run Sample.four_in_order (ArgFunc (Sample.form_D TString 2))
           (mkWorld [] None (fun _ => 0%nat) [])
         = Ok count w2
      /\ w_calls w1 = w_calls w2.
Proof.
  split; [exact (accepted_in_order_D 2)|]. split; [right; reflexivity|].
  destruct (Run_reproducible
              Sample.four_in_order (Sample.form_D TString 2) FormD (Sample.world0 None)
              (fun _ => 0%nat) (accepted_in_order_D 2) (or_intror eq_refl))
    as (count & w1 & w2 & HR1 & HR2 & Hc & _).
  exists count, w1, w2. split; [exact HR1|]. split; [exact HR2|exact Hc].
Defined.

Lemma Run_count_bounds_witness :
  accepted Sample.four_cases (Sample.form_D TString 2) FormD
  /\ exists count w',
      Run Sample.four_cases (ArgFunc (Sample.form_D TString 2))
        (Sample.world0 (Some "3,0,7,3"%string))
      = Ok count w'
      /\ 1 <= count <= 3.
Proof.
  split; [exact (accepted_form_D 2)|].
  destruct (Run_count_bounds
              Sample.four_cases (Sample.form_D TString 2) FormD
              (Sample.world0 (Some "3,0,7,3"%string)) (accepted_form_D 2))
    as (count & w' & HR & Hb & H1 & _).
  exists count, w'. split; [exact HR|].
  split; [apply H1; vm_compute; discriminate|].
  destruct Hb as [_ Hb]. vm_compute in Hb. exact Hb.
Defined.

Lemma Run_override_out_of_range_witness :
  accepted Sample.four_in_order (Sample.form_D TString 2) FormD
  /\ parse_override (w_runorder (Sample.world0 (Some "9,-1,x"%string))) <> []
  /\ Run Sample.four_in_order (ArgFunc (Sample.form_D TString 2))
       (Sample.world0 (Some "9,-1,x"%string))
     = Ok 0 (Sample.world0 (Some "9,-1,x"%string)).
Proof.
  assert (Hov : parse_override (w_runorder (Sample.world0 (Some "9,-1,x"%string))) <> [])
    by (vm_compute; discriminate).
  split; [exact (accepted_in_order_D 2)|]. split; [exact Hov|].
  apply (Run_override_out_of_range
           Sample.four_in_order (Sample.form_D TString 2) FormD _
           (accepted_in_order_D 2) Hov).
  vm_compute. repeat constructor; intros [H1 H2]; try (now apply H1); now apply H2.
Defined.

Lemma Run_panic_reasons_witness :
  Run Sample.four_cases (ArgFunc (Sample.form_A TInt)) (Sample.world0 None)
  = Panicked IncorrectParameter (Sample.world0 None)
  /\ (validation_reason IncorrectParameter \/ call_reason IncorrectParameter).
Proof.
  assert (HR : Run Sample.four_cases (ArgFunc (Sample.form_A TInt)) (Sample.world0 None)
               = Panicked IncorrectParameter (Sample.world0 None)) by reflexivity.
  split; [exact HR|].
  exact (proj1 (Run_panic_reasons _ _ _ _ _ HR)).
Defined.

Lemma Run_no_result_runs_all_witness :
  accepted Sample.four_cases (Sample.form_C TString) FormC
  /\ expectsResult FormC = false
  /\ exists w',
      Run Sample.four_cases (ArgFunc (Sample.form_C TString))
        (Sample.world0 (Some "1,3,1"%string))
      = Ok 3 w'.
Proof.
  split; [exact accepted_form_C|]. split; [reflexivity|].
  destruct (Run_no_result_runs_all
              Sample.four_cases (Sample.form_C TString) FormC
              (Sample.world0 (Some "1,3,1"%string)) accepted_form_C eq_refl)
    as (new & w' & HR & _).
  exists w'. exact HR.
Defined.

Lemma Run_first_call_false_witness :
  accepted Sample.four_in_order (Sample.form_D TString 0) FormD
  /\ expectsResult FormD = true
  /\ exists w',
      Run Sample.four_in_order (ArgFunc (Sample.form_D TString 0)) (Sample.world0 None)
      = Ok 1 w'.
Proof.
  split; [exact (accepted_in_order_D 0)|]. split; [reflexivity|].
  destruct (Run_first_call_false
              Sample.four_in_order (Sample.form_D TString 0) FormD (Sample.world0 None)
              0 [1; 2; 3] (accepted_in_order_D 0) eq_refl eq_refl eq_refl)
    as (w' & HR & _).
  exists w'. exact HR.
Defined.

Lemma Cases_invariant_witness :
  Cases Sample.four = inr Sample.four_cases
  /\ Forall (fun v => vType Sample.four_cases = Some (v_type v))
            (cases Sample.four_cases).
Proof.
  split; [reflexivity|].
  exact (proj1 (Cases_invariant Sample.four Sample.four_cases eq_refl)).
Defined.

Lemma Cases_diagnostic_witness :
  Cases (Sample.four ++ [IVal (mkValue TInt (DInt 7)); INil])
  = inl (TestcaseTypeMismatch TString 4 TInt)
  /\ exists i tc,
      Cases (take i (Sample.four ++ [IVal (mkValue TInt (DInt 7)); INil])) = inr tc.
Proof.
  assert (H : Cases (Sample.four ++ [IVal (mkValue TInt (DInt 7)); INil])
              = inl (TestcaseTypeMismatch TString 4 TInt)) by reflexivity.
  split; [exact H|].
  destruct (Cases_diagnostic _ _ H) as (i & tc & Hok & _).
  exists i, tc. exact Hok.
Defined.

Lemma Run_after_Cases_witness :
  Cases Sample.four = inr Sample.four_cases
  /\ Sample.four !! 0%nat = Some (IVal (Sample.str "a"))
  /\ (exists count w',
        Run (mkTest (cases Sample.four_cases) (vType Sample.four_cases) true)
          (ArgFunc (Sample.form_B TString 0)) (Sample.world0 None)
        = Ok count w')
  /\ (exists p,
        Run (mkTest (cases Sample.four_cases) (vType Sample.four_cases) true)
          (ArgFunc (Sample.form_B TInt 0)) (Sample.world0 None)
        = Panicked p (Sample.world0 None)
        /\ validation_reason p).
Proof.
  split; [reflexivity|]. split; [reflexivity|]. split.
  - apply (Run_after_Cases Sample.four Sample.four_cases (Sample.str "a") true
             (Sample.form_B TString 0) (Sample.world0 None) eq_refl eq_refl);
      [reflexivity|]. exists FormB. reflexivity.
  - apply (Run_after_Cases Sample.four Sample.four_cases (Sample.str "a") true
             (Sample.form_B TInt 0) (Sample.world0 None) eq_refl eq_refl).
    intros []; left; discriminate.
Defined.

Lemma Run_stops_at_first_false_witness :
  accepted Sample.four_in_order (Sample.form_D TString 2) FormD
  /\ expectsResult FormD = true
  /\ first_false_answer
       (answers (Sample.form_D TString 2)
          (map (args_of Sample.four_in_order (expectsIndex FormD))
             (resolved_order Sample.four_in_order
                (w_runorder (Sample.world0 None)) (w_source (Sample.world0 None))))
          (w_state (Sample.world0 None))) 3
  /\ exists w',
      Run Sample.four_in_order (ArgFunc (Sample.form_D TString 2)) (Sample.world0 None)
      = Ok 3 w'.
Proof.
  assert (Hk : first_false_answer
                 (answers (Sample.form_D TString 2)
                    (map (args_of Sample.four_in_order (expectsIndex FormD))
                       (resolved_order Sample.four_in_order
                          (w_runorder (Sample.world0 None))
                          (w_source (Sample.world0 None))))
                    (w_state (Sample.world0 None))) 3).
  { split; [lia|]. split; [reflexivity|].
    intros [|[|i]] Hi; [reflexivity|reflexivity|simpl in Hi; lia]. }
  split; [exact (accepted_in_order_D 2)|]. split; [reflexivity|]. split; [exact Hk|].
  destruct (Run_stops_at_first_false
              Sample.four_in_order (Sample.form_D TString 2) FormD (Sample.world0 None)
              3 (accepted_in_order_D 2) eq_refl Hk)
    as (new & w' & HR & _).
  exists w'. exact HR.
Defined.



